(** * protopuf: varint, enum and array coders, and their skippers

    A shallow embedding of [include/protopuf/varint.h], [enum.h], [array.h],
    [coder.h] and [skip.h], and the properties of the coders that the
    specification states.

    Conventions of the embedding.
    - A [std::byte] is a [Z] in [0, 256).
    - The memory a view points into is a [store]: a list of bytes.  A view
      ([pp::bytes], a [std::span<std::byte>]) is a pair of positions in the
      store; an iterator is a position.
    - An unsigned integer of [w] bits is a [Z] in [0, 2^w); conversions and
      wrap-around are written out.  [int] is taken to be 32 bits wide.
    - A call returns a [result]: [Present] (the value; in safe mode the engaged
      optional), [Absent] (safe mode's empty optional), [Undefined] (the C++
      program has no defined behaviour: an access outside the store, a shift by
      the operand's width or more, a [subspan] longer than the view) or
      [Diverges] (a loop of the model ran out of the fuel it was given). *)

From Stdlib Require Import ZArith Lia Bool.
From stdpp Require Import base tactics list numbers.

Local Open Scope Z_scope.

(** ** Integer types *)

(** Modelled from the spec: [int.h] is not among the sources.  The integral
    types are the fixed-width ones of section 4.3, [pp::uint<N>] and
    [pp::sint<N>] for N = 1, 2, 4, 8 bytes; a [width] names the size. *)
Inductive width : Type := W8 | W16 | W32 | W64.

Definition sizeof (w : width) : nat :=
  match w with W8 => 1 | W16 => 2 | W32 => 4 | W64 => 8 end%nat.

Definition bits (w : width) : Z := 8 * Z.of_nat (sizeof w).

(** Operands narrower than [int] are promoted to [int] before a shift. *)
Definition promoted_bits (w : width) : Z := Z.max 32 (bits w).

(** [static_cast<std::make_unsigned_t<T>>(n)] *)
Definition to_unsigned (w : width) (n : Z) : Z := n mod 2 ^ bits w.

(** [static_cast<std::make_signed_t<T>>(n)] *)
Definition to_signed (w : width) (n : Z) : Z :=
  let u := n mod 2 ^ bits w in
  if u <? 2 ^ (bits w - 1) then u else u - 2 ^ bits w.

(** ** Results *)

Inductive result (A : Type) : Type :=
| Present (a : A)
| Absent
| Undefined
| Diverges.
Arguments Present {A} a.
Arguments Absent {A}.
Arguments Undefined {A}.
Arguments Diverges {A}.

Definition rbind {A B} (r : result A) (k : A -> result B) : result B :=
  match r with
  | Present a => k a
  | Absent => Absent
  | Undefined => Undefined
  | Diverges => Diverges
  end.

Notation "'let?' x := r 'in' k" := (rbind r (fun x => k))
  (at level 10, x name, r at level 100, k at level 200).

(** [static_cast<T>(static_cast<T>(x) << k)] for an unsigned [T] of width [w]:
    the operand is promoted, shifted (undefined when [k] is not less than the
    promoted width) and converted back to [T]. *)
Definition shl (w : width) (x k : Z) : result Z :=
  if k <? promoted_bits w then Present ((x * 2 ^ k) mod 2 ^ bits w)
  else Undefined.

(** ** Bytes, stores and views *)

Abbreviation byte := Z (only parsing).
Abbreviation store := (list byte) (only parsing).

(** Modelled from the spec: [byte.h] is not among the sources.  [pp::bytes] is
    the byte view of section 4.1, a bounded window [begin, end) over
    caller-owned bytes. *)
Record bytes : Type := mk_bytes { b_begin : nat; b_end : nat }.

Definition size (b : bytes) : nat := (b_end b - b_begin b)%nat.

(** Modelled from the spec: [begin_diff(a, b) = a.begin - b.begin]. *)
Definition begin_diff (a b : bytes) : Z := Z.of_nat (b_begin a) - Z.of_nat (b_begin b).

(** A view is well formed in a store when it lies inside it. *)
Definition view_in (b : bytes) (m : store) : Prop :=
  (b_begin b <= b_end b <= length m)%nat.

(** Reading [*iter]. *)
Definition load (m : store) (iter : nat) : result byte :=
  match m !! iter with
  | Some x => Present x
  | None => Undefined
  end.

(** ** Encoders: state passing over the store *)

Definition M (A : Type) : Type := store -> store * result A.

Definition ret {A} (a : A) : M A := fun m => (m, Present a).

Definition lift {A} (r : result A) : M A := fun m => (m, r).

Definition bind {A B} (c : M A) (k : A -> M B) : M B := fun m =>
  match c m with
  | (m1, Present a) => k a m1
  | (m1, Absent) => (m1, Absent)
  | (m1, Undefined) => (m1, Undefined)
  | (m1, Diverges) => (m1, Diverges)
  end.

Notation "'do' x <- c ; k" := (bind c (fun x => k))
  (at level 10, x name, c at level 100, k at level 200).

(** [*iter = x] *)
Definition poke (iter : nat) (x : byte) : M unit := fun m =>
  if decide (iter < length m)%nat then (<[iter := x]> m, Present tt)
  else (m, Undefined).

(** [*iter] inside an encoder. *)
Definition peek (iter : nat) : M byte := fun m => (m, load m iter).

(** ** varint.h *)

Module varint_coder.

(** The do-while loop of [encode]:
    [do { if (is_safe && iter == end) return {};
          *iter = 0x80 | std::byte(n); n >>= 7, ++iter; } while (n != 0);] *)
Fixpoint encode_loop (is_safe : bool) (fuel : nat) (n : Z) (iter end_ : nat)
  : M nat :=
  match fuel with
  | O => lift Diverges
  | S fuel' =>
      if is_safe && (iter =? end_)%nat then lift Absent
      else
        do u <- poke iter (Z.lor 128 (n mod 256));
        let n := Z.shiftr n 7 in
        let iter := S iter in
        if n =? 0 then ret iter else encode_loop is_safe fuel' n iter end_
  end.

(** A value of [w] bits is zero after at most [w] shifts. *)
Definition fuel_of (w : width) : nat := Z.to_nat (bits w).

Definition encode (w : width) (is_safe : bool) (n : Z) (s : bytes) : M bytes :=
  do iter <- encode_loop is_safe (fuel_of w) n (b_begin s) (b_end s);
  do x <- peek (iter - 1);
  do u <- poke (iter - 1) (Z.land x 127);
  ret (mk_bytes iter (b_end s)).

(** The while loop of [decode] and the statement after it.  [rest] is the
    store from [iter] on, so its head is [*iter]; reading past the store is
    undefined. *)
Fixpoint decode_loop (is_safe : bool) (w : width) (rest : list byte)
    (iter end_ : nat) (i : Z) (n : Z) : result (Z * nat) :=
  match rest with
  | [] => Undefined
  | x :: rest' =>
      if Z.shiftr x 7 =? 1 then
        let? g := shl w (Z.land x 127) (7 * i) in
        let n := Z.lor n g in
        let iter := S iter in
        let i := i + 1 in
        if is_safe && (iter =? end_)%nat then Absent
        else decode_loop is_safe w rest' iter end_ i n
      else
        let? g := shl w x (7 * i) in
        Present (Z.lor n g, S iter)
  end.

Definition decode (w : width) (is_safe : bool) (s : bytes) (m : store)
  : result (Z * bytes) :=
  if is_safe && (b_begin s =? b_end s)%nat then Absent
  else
    let? r :=
      decode_loop is_safe w (drop (b_begin s) m) (b_begin s) (b_end s) 0 0 in
    Present (r.1, mk_bytes r.2 (b_end s)).

End varint_coder.

(** The signed specialisation forwards to the unsigned coder of the same
    width: the argument is converted to [std::make_unsigned_t<T>], the decoded
    value back to [T]. *)
Module varint_coder_signed.

Definition encode (w : width) (is_safe : bool) (n : Z) (s : bytes) : M bytes :=
  varint_coder.encode w is_safe (to_unsigned w n) s.

Definition decode (w : width) (is_safe : bool) (s : bytes) (m : store)
  : result (Z * bytes) :=
  let? r := varint_coder.decode w is_safe s m in
  Present (to_signed w r.1, r.2).

End varint_coder_signed.

(** An integral type: its signedness and its width. *)
Record int_type : Type := mk_int_type { is_signed : bool; int_width : width }.

(** [varint_coder<T>] for an integral [T]: overload resolution between the
    two specialisations. *)
Definition varint_encode (t : int_type) : bool -> Z -> bytes -> M bytes :=
  if is_signed t then varint_coder_signed.encode (int_width t)
  else varint_coder.encode (int_width t).

Definition varint_decode (t : int_type) : bool -> bytes -> store -> result (Z * bytes) :=
  if is_signed t then varint_coder_signed.decode (int_width t)
  else varint_coder.decode (int_width t).

(** ** enum.h *)

(** An enumeration is described by its underlying type; a value of the
    enumeration is the integer it holds. *)
Module enum_coder.

Definition encode (underlying : int_type) (is_safe : bool) (i : Z) (b : bytes)
  : M bytes :=
  varint_encode underlying is_safe i b.

Definition decode (underlying : int_type) (is_safe : bool) (b : bytes) (m : store)
  : result (Z * bytes) :=
  let? decode_v := varint_decode underlying is_safe b m in
  Present (decode_v.1, decode_v.2).

End enum_coder.

(** ** skip.h *)

(** [b.subspan(n)] and [b.subspan<n>()]: undefined when [n] exceeds the size. *)
Definition subspan (b : bytes) (n : Z) : result bytes :=
  if n <=? Z.of_nat (size b) then Present (mk_bytes (b_begin b + Z.to_nat n) (b_end b))
  else Undefined.

Module skipper_integer_coder.

Definition encode_skip (w : width) (v : Z) : result Z :=
  Present (Z.of_nat (sizeof w)).

Definition decode_skip (w : width) (is_safe : bool) (b : bytes) (m : store)
  : result bytes :=
  if is_safe && (size b <? sizeof w)%nat then Absent
  else subspan b (Z.of_nat (sizeof w)).

End skipper_integer_coder.

Module skipper_varint_coder.

(** [do { v >>= 7, ++n; } while (v != 0);] *)
Fixpoint encode_skip_loop (fuel : nat) (v : Z) (n : Z) : result Z :=
  match fuel with
  | O => Diverges
  | S fuel' =>
      let v := Z.shiftr v 7 in
      let n := n + 1 in
      if v =? 0 then Present n else encode_skip_loop fuel' v n
  end.

Definition encode_skip (w : width) (v : Z) : result Z :=
  encode_skip_loop (varint_coder.fuel_of w) v 0.

(** The loop [while] whose condition reads the byte at [iter], increments
    [iter] and tests the byte's top bit; its body is safe mode's
    [if (iter == end) return {};]. *)
Fixpoint decode_skip_loop (is_safe : bool) (rest : list byte) (iter end_ : nat)
  : result nat :=
  match rest with
  | [] => Undefined
  | x :: rest' =>
      let iter := S iter in
      if Z.shiftr x 7 =? 1 then
        if is_safe && (iter =? end_)%nat then Absent
        else decode_skip_loop is_safe rest' iter end_
      else Present iter
  end.

Definition decode_skip (w : width) (is_safe : bool) (b : bytes) (m : store)
  : result bytes :=
  if is_safe && (b_begin b =? b_end b)%nat then Absent
  else
    let? iter := decode_skip_loop is_safe (drop (b_begin b) m) (b_begin b) (b_end b) in
    Present (mk_bytes iter (b_end b)).

End skipper_varint_coder.

Module skipper_varint_coder_signed.

Definition encode_skip (w : width) (v : Z) : result Z :=
  skipper_varint_coder.encode_skip w (to_unsigned w v).

Definition decode_skip (w : width) (is_safe : bool) (b : bytes) (m : store)
  : result bytes :=
  skipper_varint_coder.decode_skip w is_safe b m.

End skipper_varint_coder_signed.

Definition varint_encode_skip (t : int_type) : Z -> result Z :=
  if is_signed t then skipper_varint_coder_signed.encode_skip (int_width t)
  else skipper_varint_coder.encode_skip (int_width t).

Module skipper_enum_coder.

Definition encode_skip (underlying : int_type) (v : Z) : result Z :=
  varint_encode_skip underlying v.

Definition decode_skip (underlying : int_type) (is_safe : bool) (b : bytes)
    (m : store) : result bytes :=
  skipper_integer_coder.decode_skip (int_width underlying) is_safe b m.

End skipper_enum_coder.

(** [skipper<float_coder<T>>], for [float] and [double]. *)
Inductive float_type : Type := F32 | F64.

Definition sizeof_float (t : float_type) : nat :=
  match t with F32 => 4 | F64 => 8 end%nat.

Module skipper_float_coder.

Definition encode_skip (t : float_type) : result Z :=
  Present (Z.of_nat (sizeof_float t)).

Definition decode_skip (t : float_type) (is_safe : bool) (b : bytes) (m : store)
  : result bytes :=
  if is_safe && (size b <? sizeof_float t)%nat then Absent
  else subspan b (Z.of_nat (sizeof_float t)).

End skipper_float_coder.

(** [skipper<bool_coder>]: a [bool] is skipped as the one-byte integer it
    converts to. *)
Module skipper_bool_coder.

Definition encode_skip (v : bool) : result Z :=
  skipper_integer_coder.encode_skip W8 (Z.b2z v).

Definition decode_skip (is_safe : bool) (b : bytes) (m : store) : result bytes :=
  skipper_integer_coder.decode_skip W8 is_safe b m.

End skipper_bool_coder.

(** ** coder.h: the coder concept, and the skipper that goes with a coder *)

Record coder : Type := mk_coder {
  value_type : Type;
  encode : bool -> value_type -> bytes -> M bytes;
  decode : bool -> bytes -> store -> result (value_type * bytes)
}.

Class skipper (C : coder) : Type := mk_skipper {
  encode_skip : value_type C -> result Z;
  decode_skip : bool -> bytes -> store -> result bytes
}.
Arguments encode_skip C {_} _.
Arguments decode_skip C {_} _ _ _.

Definition varint (w : width) : coder :=
  mk_coder Z (varint_coder.encode w) (varint_coder.decode w).

Definition enum (underlying : int_type) : coder :=
  mk_coder Z (enum_coder.encode underlying) (enum_coder.decode underlying).

#[export] Instance skipper_varint (w : width) : skipper (varint w) :=
  mk_skipper (varint w) (skipper_varint_coder.encode_skip w)
    (skipper_varint_coder.decode_skip w).

#[export] Instance skipper_enum (underlying : int_type) : skipper (enum underlying) :=
  mk_skipper (enum underlying) (skipper_enum_coder.encode_skip underlying)
    (skipper_enum_coder.decode_skip underlying).

(** ** array.h *)

Module array_coder.
Section array_coder.

Context (C : coder) `{!skipper C}.

(** [uint<8> n = 0; for (const auto &i : con) n += skipper<C>::encode_skip(i);] *)
Fixpoint skip_sum (con : list (value_type C)) (n : Z) : result Z :=
  match con with
  | [] => Present n
  | i :: con' =>
      let? k := encode_skip C i in
      skip_sum con' ((n + k) mod 2 ^ 64)
  end.

(** [for (const auto& i : con) if (!get_value_from_result(C::encode(i, safe_b), safe_b)) return {};] *)
Fixpoint encode_elements (is_safe : bool) (con : list (value_type C))
    (safe_b : bytes) : M bytes :=
  match con with
  | [] => ret safe_b
  | i :: con' =>
      do safe_b <- encode C is_safe i safe_b;
      encode_elements is_safe con' safe_b
  end.

Definition encode (is_safe : bool) (con : list (value_type C)) (b : bytes)
  : M bytes :=
  do n <- lift (skip_sum con 0);
  do safe_b <- varint_coder.encode W64 is_safe n b;
  encode_elements is_safe con safe_b.

(** [while (begin_diff(b, origin_b) < len) { ... }]: the difference is
    converted to the unsigned type of [len] for the comparison.  A round
    that leaves the loop running has to consume at least one of the [len]
    bytes, so [len] rounds are all the loop can take; with a coder that
    consumes nothing the loop does not end. *)
Fixpoint decode_loop (is_safe : bool) (fuel : nat) (len : Z) (origin_b b : bytes)
    (con : list (value_type C)) (m : store)
  : result (list (value_type C) * bytes) :=
  if to_unsigned W64 (begin_diff b origin_b) <? len then
    match fuel with
    | O => Diverges
    | S fuel' =>
        let? decode_v := decode C is_safe b m in
        decode_loop is_safe fuel' len origin_b decode_v.2 (con ++ [decode_v.1]) m
    end
  else Present (con, b).

Definition decode (is_safe : bool) (b : bytes) (m : store)
  : result (list (value_type C) * bytes) :=
  let? decode_len := varint_coder.decode W64 is_safe b m in
  let len := decode_len.1 in
  let b := decode_len.2 in
  let origin_b := b in
  decode_loop is_safe (Z.to_nat len) len origin_b b [] m.

End array_coder.
End array_coder.

Definition array (C : coder) `{!skipper C} : coder :=
  mk_coder (list (value_type C)) (array_coder.encode C) (array_coder.decode C).

Module skipper_array_coder.
Section skipper_array_coder.

Context (C : coder) `{!skipper C}.

Definition encode_skip (con : list (value_type C)) : result Z :=
  let? n := array_coder.skip_sum C con 0 in
  let? k := skipper_varint_coder.encode_skip W64 n in
  Present ((n + k) mod 2 ^ 64).

Definition decode_skip (is_safe : bool) (b : bytes) (m : store) : result bytes :=
  let? decode_len := varint_coder.decode W64 is_safe b m in
  let n := decode_len.1 in
  let b := decode_len.2 in
  if is_safe && (Z.of_nat (size b) <? n) then Absent
  else subspan b n.

End skipper_array_coder.
End skipper_array_coder.

#[export] Instance skipper_array (C : coder) `{!skipper C} : skipper (array C) :=
  mk_skipper (array C) (skipper_array_coder.encode_skip C)
    skipper_array_coder.decode_skip.

(** ** skip.h as it was before the safety mode

    [include/protopuf/skip.h] holds the skippers without the [is_safe]
    parameter: [decode_skip] returns a view and checks nothing. *)
Module unchecked.

Module skipper_integer_coder.

Definition encode_skip (w : width) (v : Z) : result Z :=
  Present (Z.of_nat (sizeof w)).

Definition decode_skip (w : width) (b : bytes) (m : store) : result bytes :=
  subspan b (Z.of_nat (sizeof w)).

End skipper_integer_coder.

Module skipper_float_coder.

Definition encode_skip (t : float_type) : result Z :=
  Present (Z.of_nat (sizeof_float t)).

Definition decode_skip (t : float_type) (b : bytes) (m : store) : result bytes :=
  subspan b (Z.of_nat (sizeof_float t)).

End skipper_float_coder.

Module skipper_varint_coder.

(** [do { v >>= 7, ++n; } while (v != 0);] *)
Fixpoint encode_skip_loop (fuel : nat) (v : Z) (n : Z) : result Z :=
  match fuel with
  | O => Diverges
  | S fuel' =>
      let v := Z.shiftr v 7 in
      let n := n + 1 in
      if v =? 0 then Present n else encode_skip_loop fuel' v n
  end.

Definition encode_skip (w : width) (v : Z) : result Z :=
  encode_skip_loop (varint_coder.fuel_of w) v 0.

(** The loop [while] with an empty body, whose condition reads the byte at
    [iter], increments [iter] and tests the byte's top bit. *)
Fixpoint decode_skip_loop (rest : list byte) (iter : nat) : result nat :=
  match rest with
  | [] => Undefined
  | x :: rest' =>
      let iter := S iter in
      if Z.shiftr x 7 =? 1 then decode_skip_loop rest' iter else Present iter
  end.

Definition decode_skip (w : width) (b : bytes) (m : store) : result bytes :=
  let? iter := decode_skip_loop (drop (b_begin b) m) (b_begin b) in
  Present (mk_bytes iter (b_end b)).

End skipper_varint_coder.

Module skipper_varint_coder_signed.

Definition encode_skip (w : width) (v : Z) : result Z :=
  skipper_varint_coder.encode_skip w (to_unsigned w v).

Definition decode_skip (w : width) (b : bytes) (m : store) : result bytes :=
  skipper_varint_coder.decode_skip w b m.

End skipper_varint_coder_signed.

Module skipper_bool_coder.

Definition encode_skip (v : bool) : result Z :=
  skipper_integer_coder.encode_skip W8 (Z.b2z v).

Definition decode_skip (b : bytes) (m : store) : result bytes :=
  skipper_integer_coder.decode_skip W8 b m.

End skipper_bool_coder.

End unchecked.

(** * Notions the properties are stated with *)

(** The number of significant bits of [n], and the length the specification
    gives for the varint of [n]: max(1, ceil(bitlen(n) / 7)). *)
Definition bitlen (n : Z) : Z := if n =? 0 then 0 else Z.log2 n + 1.

Definition varint_len (n : Z) : Z := Z.max 1 ((bitlen n + 6) / 7).

(** The bytes the loop of [varint_coder.encode] stores, round by round: every
    byte carries the continuation bit. *)
Fixpoint loop_bytes (fuel : nat) (n : Z) : list byte :=
  match fuel with
  | O => []
  | S fuel' =>
      Z.lor 128 (n mod 256)
      :: (if Z.shiftr n 7 =? 0 then [] else loop_bytes fuel' (Z.shiftr n 7))
  end.

(** The same bytes once the statement after the loop has cleared the top bit
    of the last one: the varint of [n] on the wire. *)
Fixpoint leb128 (fuel : nat) (n : Z) : list byte :=
  match fuel with
  | O => []
  | S fuel' =>
      if Z.shiftr n 7 =? 0 then [Z.land (Z.lor 128 (n mod 256)) 127]
      else Z.lor 128 (n mod 256) :: leb128 fuel' (Z.shiftr n 7)
  end.

Definition varint_wire (w : width) (n : Z) : list byte :=
  leb128 (varint_coder.fuel_of w) n.

(** The bytes of the store that a view covers from its begin, [k] of them. *)
Definition window (m : store) (b : bytes) (k : nat) : list byte :=
  take k (drop (b_begin b) m).

(** The store [m] with [l] written at position [p]. *)
Definition written (m : store) (p : nat) (l : list byte) : store :=
  take p m ++ l ++ drop (p + length l) m.

(** A varint on the wire: continuation bytes, then one byte with the top bit
    clear. *)
Definition varint_shape (l : list byte) : Prop :=
  exists init last, l = init ++ [last]
    /\ Forall (fun x => Z.shiftr x 7 = 1) init /\ Z.shiftr last 7 = 0.

(** A value of the unsigned type of width [w]. *)
Definition in_range (w : width) (n : Z) : Prop := 0 <= n < 2 ^ bits w.

(** Two stores of one length that differ at most inside [lo, hi). *)
Definition agree_outside (m m' : store) (lo hi : nat) : Prop :=
  length m' = length m /\ forall j, (j < lo \/ hi <= j)%nat -> m' !! j = m !! j.

(** [s'] is a suffix of the view [s]. *)
Definition suffix_of (s' s : bytes) : Prop :=
  b_end s' = b_end s /\ (b_begin s <= b_begin s' <= b_end s')%nat.

(** The view starts with [k] continuation bytes followed, still inside the
    view, by a byte whose top bit is clear. *)
Definition terminator_at (m : store) (s : bytes) (k : nat) : Prop :=
  (b_begin s + k < b_end s)%nat
  /\ (forall j, (j < k)%nat ->
        exists x, m !! (b_begin s + j)%nat = Some x /\ Z.shiftr x 7 = 1)
  /\ exists t, m !! (b_begin s + k)%nat = Some t /\ Z.shiftr t 7 = 0.

(** The width bound of the specification: ceil(bitwidth / 7) bytes. *)
Definition width_bound (w : width) : Z := (bits w + 6) / 7.

(** A coder whose safe decode hands back a suffix of the view it was given. *)
Definition suffix_decoder (C : coder) : Prop :=
  forall b (m : store) v b',
    (b_begin b <= b_end b)%nat -> decode C true b m = Present (v, b') -> suffix_of b' b.

(** The sum of the lengths [skipper<C>::encode_skip] reports, without wrap. *)
Fixpoint payload_size (C : coder) `{!skipper C} (con : list (value_type C)) : Z :=
  match con with
  | [] => 0
  | i :: con' =>
      match encode_skip C i with
      | Present k => k + payload_size C con'
      | _ => 0
      end
  end.

(** A coder that keeps the encoding law on the values of [domain]:
    [encode_skip] gives the length of the wire form, and [encode], given
    room, writes the wire form at the begin of the view and returns the rest. *)
Class lawful_encoder (C : coder) `{!skipper C}
    (domain : value_type C -> Prop) (wire : value_type C -> list byte) : Prop := {
  encode_skip_wire : forall v,
    domain v -> encode_skip C v = Present (Z.of_nat (length (wire v)));
  encode_wire : forall is_safe v b (m : store),
    domain v ->
    (b_begin b + length (wire v) <= b_end b <= length m)%nat ->
    encode C is_safe v b m
    = (written m (b_begin b) (wire v),
       Present (mk_bytes (b_begin b + length (wire v)) (b_end b)))
}.

(** The wire form of a sequence: the varint of the payload length, then the
    elements in order. *)
Definition array_payload {V} (wire : V -> list byte) (con : list V) : list byte :=
  concat (map wire con).

Definition array_wire {V} (wire : V -> list byte) (con : list V) : list byte :=
  varint_wire W64 (Z.of_nat (length (array_payload wire con))) ++ array_payload wire con.

(** The sequences the array coder keeps the law on: elements of the domain,
    and a wire form whose length fits the 64-bit counters of [encode]. *)
Definition array_domain {V} (domain : V -> Prop) (wire : V -> list byte)
    (con : list V) : Prop :=
  Forall domain con /\ Z.of_nat (length (array_wire wire con)) < 2 ^ 64.

(** The values of an integral type, and the unsigned value the varint coder
    is handed for one of them. *)
Definition int_range (t : int_type) (v : Z) : Prop :=
  if is_signed t then - 2 ^ (bits (int_width t) - 1) <= v < 2 ^ (bits (int_width t) - 1)
  else in_range (int_width t) v.

Definition as_unsigned (t : int_type) (v : Z) : Z :=
  if is_signed t then to_unsigned (int_width t) v else v.

Definition enum_wire (t : int_type) (v : Z) : list byte :=
  varint_wire (int_width t) (as_unsigned t v).

(** A coder whose safe decode, when it gives a value, has consumed at least
    one byte, and which has no loop of its own that could fail to end. *)
Definition progressing_decoder (C : coder) : Prop :=
  forall b (m : store),
    match decode C true b m with
    | Present r => (b_begin b < b_begin r.2)%nat
    | Diverges => False
    | _ => True
    end.


(** A coder that reads back its wire form: wherever the store holds the wire
    form of [v] at the begin of a view that reaches past it, [decode] returns
    [v] and the view past it.  No wire form is empty. *)
Class lawful_decoder (C : coder)
    (domain : value_type C -> Prop) (wire : value_type C -> list byte) : Prop := {
  decode_wire : forall is_safe v b (m : store) rest,
    domain v ->
    drop (b_begin b) m = wire v ++ rest ->
    (is_safe = true -> (b_begin b + length (wire v) <= b_end b)%nat) ->
    decode C is_safe b m
    = Present (v, mk_bytes (b_begin b + length (wire v)) (b_end b));
  wire_nonempty : forall v, domain v -> (1 <= length (wire v))%nat
}.

(** A coder whose safe encode writes inside the view only and returns a
    suffix of it. *)
Definition framed_encoder (C : coder) : Prop :=
  forall v b (m : store),
    (b_begin b <= b_end b)%nat ->
    exists m' r, encode C true v b m = (m', r)
      /\ agree_outside m m' (b_begin b) (b_end b)
      /\ forall b', r = Present b' -> suffix_of b' b.

(** A coder whose safe encode gives up on a view shorter than the wire form. *)
Definition strict_encoder (C : coder)
    (domain : value_type C -> Prop) (wire : value_type C -> list byte) : Prop :=
  forall v b (m : store),
    domain v -> view_in b m -> (size b < length (wire v))%nat ->
    exists m', encode C true v b m = (m', Absent).

(** Two stores that hold the same bytes inside a view. *)
Definition agree_inside (m m' : store) (b : bytes) : Prop :=
  forall j, (b_begin b <= j < b_end b)%nat -> m !! j = m' !! j.

(** A coder whose safe decode looks at the bytes of the view only. *)
Definition local_decoder (C : coder) : Prop :=
  forall b (m m' : store),
    (b_begin b <= b_end b)%nat -> agree_inside m m' b ->
    decode C true b m = decode C true b m'.

(** * Properties *)

(** ** The scenarios of the specification and of the unit tests *)

Example varint_150 :
  varint_coder.encode W32 true 150 (mk_bytes 0 10) (replicate 10 0)
  = ([150; 1; 0; 0; 0; 0; 0; 0; 0; 0], Present (mk_bytes 2 10)).
Proof. vm_compute. reflexivity. Qed.

Example varint_150_back :
  varint_coder.decode W32 true (mk_bytes 0 2) [150; 1] = Present (150, mk_bytes 2 2).
Proof. vm_compute. reflexivity. Qed.

(** [test/enum.cpp]: [blue = 128] of [E1] takes the two bytes 0x80 0x01, and
    [z] of [E3 : pp::uint<8>] the byte 2. *)
Example enum_encode_blue :
  encode (enum (mk_int_type false W32)) true 128 (mk_bytes 0 10) (replicate 10 0)
  = ([128; 1; 0; 0; 0; 0; 0; 0; 0; 0], Present (mk_bytes 2 10)).
Proof. vm_compute. reflexivity. Qed.

Example enum_decode_blue :
  decode (enum (mk_int_type false W32)) false (mk_bytes 0 10)
    [128; 1; 0; 0; 0; 0; 0; 0; 0; 0]
  = Present (128, mk_bytes 2 10).
Proof. vm_compute. reflexivity. Qed.

Example enum_encode_z :
  encode (enum (mk_int_type false W64)) false 2 (mk_bytes 0 10) (replicate 10 0)
  = ([2; 0; 0; 0; 0; 0; 0; 0; 0; 0], Present (mk_bytes 1 10)).
Proof. vm_compute. reflexivity. Qed.

Example array_encode_three :
  encode (array (varint W32)) true [1; 300; 2] (mk_bytes 1 10) (replicate 10 0)
  = ([0; 4; 1; 172; 2; 2; 0; 0; 0; 0], Present (mk_bytes 6 10)).
Proof. vm_compute. reflexivity. Qed.

(** Encoding a two-byte varint into a one-byte view: absent, and only byte 0
    was written. *)
Example varint_underflow :
  varint_coder.encode W32 true 150 (mk_bytes 0 1) [0; 7; 7] = ([150; 7; 7], Absent).
Proof. vm_compute. reflexivity. Qed.

(** ** Bytes and 7-bit groups *)

Lemma bits_pos w : 0 < bits w.
Proof. destruct w; reflexivity. Qed.

Lemma bits_le_promoted w : bits w <= promoted_bits w.
Proof. unfold promoted_bits. lia. Qed.

Lemma fuel_of_bits w : Z.of_nat (varint_coder.fuel_of w) = bits w.
Proof. destruct w; reflexivity. Qed.

Lemma cont_byte_msb r : 0 <= r < 256 -> Z.shiftr (Z.lor 128 r) 7 = 1.
Proof.
  intros Hr. rewrite Z.shiftr_lor, (Z.shiftr_div_pow2 r) by lia.
  change (Z.shiftr 128 7) with 1. change (2 ^ 7) with 128.
  assert (r / 128 = 0 \/ r / 128 = 1) as [-> | ->]; [|reflexivity..].
  assert (0 <= r / 128 < 2) by (split; [apply Z.div_pos | apply Z.div_lt_upper_bound]; lia).
  lia.
Qed.

Lemma cont_byte_low n : Z.land (Z.lor 128 (n mod 256)) 127 = n mod 128.
Proof.
  rewrite Z.land_lor_distr_l. change (Z.land 128 127) with 0. rewrite Z.lor_0_l.
  change 127 with (Z.ones 7). rewrite Z.land_ones by lia.
  change (2 ^ 7) with 128. apply Z.mod_mod_divide. exists 2. reflexivity.
Qed.

Lemma shiftr7_zero n : 0 <= n -> Z.shiftr n 7 = 0 -> n < 128.
Proof.
  intros Hn H. rewrite Z.shiftr_div_pow2 in H by lia. change (2 ^ 7) with 128 in H.
  pose proof (Z.div_mod n 128 ltac:(lia)). pose proof (Z.mod_pos_bound n 128 ltac:(lia)). lia.
Qed.

Lemma shiftr7_nonzero n : 0 <= n -> Z.shiftr n 7 <> 0 -> 128 <= n.
Proof.
  intros Hn H. rewrite Z.shiftr_div_pow2 in H by lia. change (2 ^ 7) with 128 in H.
  destruct (Z_lt_le_dec n 128) as [Hlt|]; [|lia].
  rewrite Z.div_small in H by lia. congruence.
Qed.

Lemma shiftr7_bound n k : 0 <= n < 2 ^ (7 * Z.of_nat (S k)) -> 0 <= Z.shiftr n 7 < 2 ^ (7 * Z.of_nat k).
Proof.
  intros [Hn Hlt]. rewrite Z.shiftr_div_pow2 by lia. split; [apply Z.div_pos; lia|].
  apply Z.div_lt_upper_bound; [lia|]. rewrite <- Z.pow_add_r by lia.
  replace (7 + 7 * Z.of_nat k) with (7 * Z.of_nat (S k)) by lia. exact Hlt.
Qed.

Lemma last_byte n : 0 <= n < 128 -> Z.land (Z.lor 128 (n mod 256)) 127 = n.
Proof. intros Hn. rewrite cont_byte_low. apply Z.mod_small. lia. Qed.

(** A value is its low group joined with the rest, seven bits up. *)
Lemma split_group n k :
  0 <= n -> 0 <= k ->
  Z.lor ((n mod 128) * 2 ^ k) (Z.shiftr n 7 * 2 ^ (k + 7)) = n * 2 ^ k.
Proof.
  intros Hn Hk. rewrite <- !Z.shiftl_mul_pow2 by lia.
  replace (k + 7) with (7 + k) by lia. rewrite <- Z.shiftl_shiftl by lia.
  rewrite <- Z.shiftl_lor. f_equal.
  change 128 with (2 ^ 7). rewrite <- Z.land_ones by lia.
  rewrite <- Z.ldiff_ones_r by lia. rewrite Z.lor_comm. apply Z.lor_ldiff_and.
Qed.

(** ** The loops of the varint coder *)

Lemma range_fuel w n : in_range w n -> 0 <= n < 2 ^ (7 * Z.of_nat (varint_coder.fuel_of w)).
Proof.
  intros [H0 H]. split; [exact H0|]. rewrite fuel_of_bits.
  eapply Z.lt_le_trans; [exact H|]. apply Z.pow_le_mono_r; pose proof (bits_pos w); lia.
Qed.

Lemma fuel_of_pos w : (0 < varint_coder.fuel_of w)%nat.
Proof. destruct w; vm_compute; lia. Qed.

Lemma loop_bytes_length fuel n :
  (0 < fuel)%nat -> (1 <= length (loop_bytes fuel n) <= fuel)%nat.
Proof.
  revert n. induction fuel as [|fuel IH]; intros n Hf; [lia|]. simpl.
  destruct (Z.shiftr n 7 =? 0); simpl; [lia|].
  destruct fuel as [|fuel']; [simpl; lia|]. specialize (IH (Z.shiftr n 7)). lia.
Qed.

Lemma leb128_length fuel n : length (leb128 fuel n) = length (loop_bytes fuel n).
Proof.
  revert n. induction fuel as [|fuel IH]; intros n; [reflexivity|]. simpl.
  destruct (Z.shiftr n 7 =? 0); simpl; [reflexivity|]. f_equal. apply IH.
Qed.

(** Clearing the top bit of the last byte the loop stored gives the wire form. *)
Lemma loop_bytes_fix fuel n :
  (0 < fuel)%nat -> 0 <= n < 2 ^ (7 * Z.of_nat fuel) ->
  exists x, loop_bytes fuel n !! (length (loop_bytes fuel n) - 1)%nat = Some x
    /\ <[(length (loop_bytes fuel n) - 1)%nat := Z.land x 127]> (loop_bytes fuel n)
       = leb128 fuel n.
Proof.
  revert n. induction fuel as [|fuel IH]; intros n Hf Hn; [lia|]. simpl.
  destruct (Z.shiftr n 7 =? 0) eqn:E; simpl.
  - eexists. split; reflexivity.
  - apply Z.eqb_neq in E. pose proof (shiftr7_bound n fuel Hn) as Hn'.
    destruct fuel as [|fuel'].
    { simpl in Hn'. change (2 ^ 0) with 1 in Hn'. lia. }
    destruct (IH (Z.shiftr n 7) ltac:(lia) Hn') as (x & Hx & Hfix).
    pose proof (loop_bytes_length (S fuel') (Z.shiftr n 7) ltac:(lia)) as Hlen.
    exists x. rewrite Nat.sub_0_r.
    destruct (length (loop_bytes (S fuel') (Z.shiftr n 7))) as [|k] eqn:Ek; [lia|].
    simpl in Hx, Hfix. rewrite Nat.sub_0_r in Hx, Hfix. simpl.
    split; [exact Hx|]. f_equal. exact Hfix.
Qed.

(** The loop of [encode], given room, stores [loop_bytes] from [iter] on. *)
Lemma encode_loop_spec is_safe fuel n iter end_ (m : store) :
  (0 < fuel)%nat -> 0 <= n < 2 ^ (7 * Z.of_nat fuel) ->
  (iter + length (loop_bytes fuel n) <= length m)%nat ->
  (is_safe = true -> (iter + length (loop_bytes fuel n) <= end_)%nat) ->
  varint_coder.encode_loop is_safe fuel n iter end_ m
  = (written m iter (loop_bytes fuel n),
     Present (iter + length (loop_bytes fuel n))%nat).
Proof.
  revert n iter m. induction fuel as [|fuel IH]; intros n iter m Hf Hn Hm He; [lia|].
  cbn [loop_bytes] in Hm, He |- *. cbn [varint_coder.encode_loop].
  destruct (Z.shiftr n 7 =? 0) eqn:E; cbn [length] in Hm, He |- *.
  all: assert (is_safe && (iter =? end_)%nat = false) as ->
    by (destruct is_safe; [|reflexivity]; simpl; apply Nat.eqb_neq;
        specialize (He eq_refl); lia).
  all: unfold bind at 1, poke; destruct (decide (iter < length m)%nat) as [Hi|Hi]; [|lia].
  - unfold ret, written. simpl. rewrite Nat.add_1_r. f_equal.
    apply insert_take_drop. exact Hi.
  - apply Z.eqb_neq in E. pose proof (shiftr7_bound n fuel Hn) as Hn'.
    assert (0 < fuel)%nat as Hf'.
    { destruct fuel; [|lia]. simpl in Hn'. change (2 ^ 0) with 1 in Hn'. lia. }
    rewrite IH; [|lia|exact Hn'|rewrite length_insert; lia|intros Hs; specialize (He Hs); lia].
    unfold written. f_equal.
    + rewrite (take_S_r _ _ (Z.lor 128 (n mod 256))) by (apply list_lookup_insert_eq; exact Hi).
      rewrite take_insert_ge by lia. rewrite drop_insert_lt by lia.
      rewrite <- app_assoc. simpl. do 3 f_equal. f_equal. lia.
    + f_equal. lia.
Qed.

(** ** Writing a run of bytes into the store *)

Lemma written_length (m : store) p l :
  (p + length l <= length m)%nat -> length (written m p l) = length m.
Proof.
  intros H. unfold written. rewrite !length_app, length_take, length_drop. lia.
Qed.

Lemma written_drop (m : store) p l :
  (p <= length m)%nat -> drop p (written m p l) = l ++ drop (p + length l) m.
Proof.
  intros H. unfold written. apply drop_app_length'. rewrite length_take. lia.
Qed.

Lemma written_lookup_in (m : store) p l i :
  (p <= length m)%nat -> written m p l !! (p + i)%nat = (l ++ drop (p + length l) m) !! i.
Proof.
  intros H. rewrite <- (written_drop m p l H). rewrite lookup_drop. reflexivity.
Qed.

Lemma written_insert (m : store) p l i x :
  (p <= length m)%nat -> (i < length l)%nat ->
  <[(p + i)%nat := x]> (written m p l) = written m p (<[i := x]> l).
Proof.
  intros H Hi. unfold written. rewrite length_insert.
  rewrite insert_app_r_alt by (rewrite length_take; lia).
  rewrite length_take. replace (p + i - p `min` length m)%nat with i by lia.
  rewrite insert_app_l by exact Hi. reflexivity.
Qed.

Lemma written_nil (m : store) p : written m p [] = m.
Proof. unfold written. simpl. rewrite Nat.add_0_r. apply take_drop. Qed.

Lemma written_app (m : store) p l1 l2 :
  (p + length l1 <= length m)%nat ->
  written (written m p l1) (p + length l1) l2 = written m p (l1 ++ l2).
Proof.
  intros H. unfold written.
  assert (length (take p m ++ l1) = (p + length l1)%nat) as Hl
    by (rewrite length_app, length_take; lia).
  rewrite (app_assoc (take p m) l1). rewrite take_app_length' by (symmetry; exact Hl).
  rewrite drop_app_ge by lia. rewrite Hl, drop_drop, length_app.
  rewrite <- !app_assoc. do 3 f_equal. f_equal. lia.
Qed.

(** ** The varint coder on values of its type *)

Lemma encode_skip_loop_spec fuel v k :
  (0 < fuel)%nat -> 0 <= v < 2 ^ (7 * Z.of_nat fuel) ->
  skipper_varint_coder.encode_skip_loop fuel v k
  = Present (k + Z.of_nat (length (loop_bytes fuel v))).
Proof.
  revert v k. induction fuel as [|fuel IH]; intros v k Hf Hv; [lia|].
  cbn [skipper_varint_coder.encode_skip_loop loop_bytes].
  destruct (Z.shiftr v 7 =? 0) eqn:E; cbn [length].
  - f_equal.
  - apply Z.eqb_neq in E. pose proof (shiftr7_bound v fuel Hv) as Hv'.
    assert (0 < fuel)%nat as Hf'.
    { destruct fuel; [|lia]. simpl in Hv'. change (2 ^ 0) with 1 in Hv'. lia. }
    rewrite IH by assumption. f_equal. lia.
Qed.

Lemma varint_len_small n : 0 <= n < 128 -> varint_len n = 1.
Proof.
  intros Hn. unfold varint_len, bitlen. destruct (n =? 0) eqn:E; [reflexivity|].
  apply Z.eqb_neq in E. assert (Z.log2 n < 7) by (apply Z.log2_lt_pow2; lia).
  pose proof (Z.log2_nonneg n).
  assert ((Z.log2 n + 1 + 6) / 7 = 1) as ->; [|reflexivity].
  symmetry. apply (Z.div_unique _ 7 1 (Z.log2 n)); lia.
Qed.

Lemma varint_len_step n : 128 <= n -> varint_len n = 1 + varint_len (Z.shiftr n 7).
Proof.
  intros Hn. unfold varint_len, bitlen.
  assert (7 <= Z.log2 n) by (apply (Z.log2_le_pow2 n 7); lia).
  assert (Z.shiftr n 7 <> 0).
  { rewrite Z.shiftr_div_pow2 by lia. change (2 ^ 7) with 128.
    assert (1 <= n / 128) by (apply Z.div_le_lower_bound; lia). lia. }
  destruct (n =? 0) eqn:E; [apply Z.eqb_eq in E; lia|].
  destruct (Z.shiftr n 7 =? 0) eqn:E'; [apply Z.eqb_eq in E'; lia|].
  rewrite Z.log2_shiftr by lia. rewrite (Z.max_r 0 (Z.log2 n - 7)) by lia.
  replace (Z.log2 n + 1 + 6) with ((Z.log2 n - 7 + 1 + 6) + 1 * 7) by lia.
  rewrite Z.div_add by lia.
  assert (1 <= (Z.log2 n - 7 + 1 + 6) / 7) by (apply Z.div_le_lower_bound; lia). lia.
Qed.

Lemma loop_bytes_varint_len fuel v :
  (0 < fuel)%nat -> 0 <= v < 2 ^ (7 * Z.of_nat fuel) ->
  Z.of_nat (length (loop_bytes fuel v)) = varint_len v.
Proof.
  revert v. induction fuel as [|fuel IH]; intros v Hf Hv; [lia|].
  cbn [loop_bytes]. destruct (Z.shiftr v 7 =? 0) eqn:E; cbn [length].
  - apply Z.eqb_eq in E. rewrite varint_len_small; [reflexivity|].
    split; [lia|]. apply shiftr7_zero; [lia|exact E].
  - apply Z.eqb_neq in E. pose proof (shiftr7_bound v fuel Hv) as Hv'.
    assert (0 < fuel)%nat as Hf'.
    { destruct fuel; [|lia]. simpl in Hv'. change (2 ^ 0) with 1 in Hv'. lia. }
    rewrite varint_len_step by (apply shiftr7_nonzero; [lia|exact E]).
    rewrite <- IH by assumption. lia.
Qed.

Lemma varint_wire_length w n :
  in_range w n -> Z.of_nat (length (varint_wire w n)) = varint_len n.
Proof.
  intros Hn. unfold varint_wire. rewrite leb128_length.
  apply loop_bytes_varint_len; [apply fuel_of_pos | apply range_fuel; exact Hn].
Qed.

Lemma varint_wire_nonempty w n : (1 <= length (varint_wire w n))%nat.
Proof.
  unfold varint_wire. rewrite leb128_length.
  apply loop_bytes_length, fuel_of_pos.
Qed.

(** [encode_skip] is total on the values of the type and gives the length of
    the wire form. *)
Lemma varint_encode_skip_spec w n :
  in_range w n ->
  skipper_varint_coder.encode_skip w n = Present (Z.of_nat (length (varint_wire w n))).
Proof.
  intros Hn. unfold skipper_varint_coder.encode_skip.
  rewrite encode_skip_loop_spec by (apply fuel_of_pos || apply range_fuel; exact Hn).
  unfold varint_wire. rewrite leb128_length. reflexivity.
Qed.

(** [encode], given room, writes the wire form at the begin of the view and
    returns the view past it. *)
Lemma varint_encode_spec w is_safe n s (m : store) :
  in_range w n ->
  (b_begin s + length (varint_wire w n) <= length m)%nat ->
  (is_safe = true -> (b_begin s + length (varint_wire w n) <= b_end s)%nat) ->
  varint_coder.encode w is_safe n s m
  = (written m (b_begin s) (varint_wire w n),
     Present (mk_bytes (b_begin s + length (varint_wire w n)) (b_end s))).
Proof.
  intros Hn Hm He. unfold varint_wire in *. rewrite leb128_length in *.
  pose proof (fuel_of_pos w) as Hf. pose proof (range_fuel w n Hn) as Hr.
  unfold varint_coder.encode. remember (varint_coder.fuel_of w) as fuel eqn:Hfuel.
  clear Hfuel. unfold bind at 1.
  rewrite encode_loop_spec by assumption.
  destruct (loop_bytes_fix fuel n Hf Hr) as (x & Hx & Hfix).
  pose proof (loop_bytes_length fuel n Hf) as Hlen.
  remember (loop_bytes fuel n) as g eqn:Hg. clear Hg.
  unfold bind at 1, peek, load.
  replace (b_begin s + length g - 1)%nat with (b_begin s + (length g - 1))%nat by lia.
  rewrite written_lookup_in by lia. rewrite lookup_app_l by lia. rewrite Hx.
  unfold bind, poke, ret.
  rewrite written_length by lia.
  destruct (decide (b_begin s + (length g - 1) < length m)%nat); [|lia].
  rewrite written_insert by lia. rewrite Hfix. reflexivity.
Qed.

Lemma shl_fits w x k :
  0 <= x -> 0 <= k < bits w -> x * 2 ^ k < 2 ^ bits w -> shl w x k = Present (x * 2 ^ k).
Proof.
  intros Hx Hk Hlt. unfold shl. pose proof (bits_le_promoted w).
  destruct (k <? promoted_bits w) eqn:E; [|apply Z.ltb_ge in E; lia].
  rewrite Z.mod_small; [reflexivity|]. split; [|exact Hlt].
  apply Z.mul_nonneg_nonneg; [exact Hx|]. apply Z.pow_nonneg. lia.
Qed.

(** Decoding the wire form of [n], read as groups [i], [i+1], ... *)
Lemma decode_loop_wire fuel n is_safe w rest iter end_ i acc :
  (0 < fuel)%nat -> 0 <= n < 2 ^ (7 * Z.of_nat fuel) ->
  0 <= i -> 7 * i < bits w -> n * 2 ^ (7 * i) < 2 ^ bits w ->
  (is_safe = true -> (iter + length (leb128 fuel n) <= end_)%nat) ->
  varint_coder.decode_loop is_safe w (leb128 fuel n ++ rest) iter end_ i acc
  = Present (Z.lor acc (n * 2 ^ (7 * i)), (iter + length (leb128 fuel n))%nat).
Proof.
  revert n iter i acc.
  induction fuel as [|fuel IH]; intros n iter i acc Hf Hn Hi Hiw Hfit He; [lia|].
  cbn [leb128] in *. destruct (Z.shiftr n 7 =? 0) eqn:E.
  - apply Z.eqb_eq in E. pose proof (shiftr7_zero n ltac:(lia) E) as Hsmall.
    rewrite last_byte by lia. cbn [app varint_coder.decode_loop length].
    rewrite E. change (0 =? 1) with false. cbv iota.
    rewrite shl_fits by lia. cbn [rbind]. do 2 f_equal. lia.
  - apply Z.eqb_neq in E. pose proof (shiftr7_nonzero n ltac:(lia) E) as Hbig.
    pose proof (shiftr7_bound n fuel Hn) as Hn'.
    assert (0 < fuel)%nat as Hf'.
    { destruct fuel; [|lia]. simpl in Hn'. change (2 ^ 0) with 1 in Hn'. lia. }
    assert (0 < 2 ^ (7 * i)) as Hpow by (apply Z.pow_pos_nonneg; lia).
    assert (Z.shiftr n 7 * 128 <= n) as Hdiv.
    { rewrite Z.shiftr_div_pow2 by lia. change (2 ^ 7) with 128.
      pose proof (Z.mul_div_le n 128 ltac:(lia)). lia. }
    assert (2 ^ (7 * (i + 1)) = 128 * 2 ^ (7 * i)) as Hstep.
    { replace (7 * (i + 1)) with (7 + 7 * i) by lia. rewrite Z.pow_add_r by lia. reflexivity. }
    assert (Z.shiftr n 7 * 2 ^ (7 * (i + 1)) <= n * 2 ^ (7 * i)) as Hle.
    { rewrite Hstep. nia. }
    assert (7 * (i + 1) < bits w) as Hiw'.
    { apply (Z.pow_lt_mono_r_iff 2); [lia|pose proof (bits_pos w); lia|].
      rewrite Hstep. nia. }
    pose proof (Z.mod_pos_bound n 128 ltac:(lia)) as Hm128.
    pose proof (Z.mod_pos_bound n 256 ltac:(lia)) as Hm256.
    assert (n mod 128 <= n) by (apply Z.mod_le; lia).
    cbn [app varint_coder.decode_loop length] in *.
    rewrite cont_byte_msb by lia. change (1 =? 1) with true. cbv iota.
    rewrite cont_byte_low. rewrite shl_fits by (try lia; nia). cbn [rbind].
    assert (is_safe && (S iter =? end_)%nat = false) as ->.
    { destruct is_safe; [|reflexivity]. cbn [andb]. apply Nat.eqb_neq.
      specialize (He eq_refl). rewrite leb128_length in He.
      pose proof (loop_bytes_length fuel (Z.shiftr n 7) Hf'). lia. }
    rewrite IH; [|assumption|exact Hn'|lia|exact Hiw'|lia|intros Hs; specialize (He Hs); lia].
    f_equal. f_equal; [|lia].
    rewrite <- Z.lor_assoc. f_equal.
    replace (7 * (i + 1)) with (7 * i + 7) by lia. apply split_group; lia.
Qed.

Lemma leb128_shape fuel n :
  (0 < fuel)%nat -> 0 <= n < 2 ^ (7 * Z.of_nat fuel) -> varint_shape (leb128 fuel n).
Proof.
  revert n. induction fuel as [|fuel IH]; intros n Hf Hn; [lia|].
  cbn [leb128]. destruct (Z.shiftr n 7 =? 0) eqn:E.
  - apply Z.eqb_eq in E. exists [], (Z.land (Z.lor 128 (n mod 256)) 127).
    split; [reflexivity|]. split; [constructor|].
    rewrite last_byte; [exact E|]. split; [lia|]. apply shiftr7_zero; [lia|exact E].
  - apply Z.eqb_neq in E. pose proof (shiftr7_bound n fuel Hn) as Hn'.
    assert (0 < fuel)%nat as Hf'.
    { destruct fuel; [|lia]. simpl in Hn'. change (2 ^ 0) with 1 in Hn'. lia. }
    destruct (IH _ Hf' Hn') as (init & last & -> & Hinit & Hlast).
    exists (Z.lor 128 (n mod 256) :: init), last. split; [reflexivity|].
    split; [|exact Hlast]. constructor; [|exact Hinit].
    apply cont_byte_msb. apply Z.mod_pos_bound. lia.
Qed.

Lemma leb128_zero fuel : (0 < fuel)%nat -> leb128 fuel 0 = [0].
Proof. destruct fuel; [lia|]. reflexivity. Qed.

(** [decode] reads back what [encode] wrote, and stops where [encode] stopped. *)
Lemma varint_decode_written w is_safe n s (m : store) :
  in_range w n ->
  (b_begin s + length (varint_wire w n) <= length m)%nat ->
  (is_safe = true -> (b_begin s + length (varint_wire w n) <= b_end s)%nat) ->
  varint_coder.decode w is_safe s (written m (b_begin s) (varint_wire w n))
  = Present (n, mk_bytes (b_begin s + length (varint_wire w n)) (b_end s)).
Proof.
  intros Hn Hm He. pose proof (varint_wire_nonempty w n) as Hne.
  unfold varint_coder.decode.
  assert (is_safe && (b_begin s =? b_end s)%nat = false) as ->.
  { destruct is_safe; [|reflexivity]. simpl. apply Nat.eqb_neq. specialize (He eq_refl). lia. }
  rewrite written_drop by lia. unfold varint_wire in *.
  destruct Hn as [Hn0 Hn1].
  rewrite decode_loop_wire.
  - cbn [rbind fst snd]. rewrite Z.lor_0_l. change (7 * 0) with 0.
    rewrite Z.pow_0_r, Z.mul_1_r. reflexivity.
  - apply fuel_of_pos.
  - apply range_fuel. split; assumption.
  - lia.
  - pose proof (bits_pos w). lia.
  - change (7 * 0) with 0. rewrite Z.pow_0_r, Z.mul_1_r. exact Hn1.
  - exact He.
Qed.

(** ** Safe mode stays inside the view *)

Lemma agree_outside_refl (m : store) lo hi : agree_outside m m lo hi.
Proof. split; [reflexivity|]. intros; reflexivity. Qed.

Lemma agree_outside_insert (m : store) lo hi i x :
  (lo <= i < hi)%nat -> agree_outside m (<[i := x]> m) lo hi.
Proof.
  intros Hi. split; [apply length_insert|]. intros j Hj.
  apply list_lookup_insert_ne. lia.
Qed.

Lemma agree_outside_trans (m1 m2 m3 : store) lo lo' hi :
  (lo <= lo')%nat ->
  agree_outside m1 m2 lo hi -> agree_outside m2 m3 lo' hi -> agree_outside m1 m3 lo hi.
Proof.
  intros Hlo [Hl1 H1] [Hl2 H2]. split; [congruence|]. intros j Hj.
  rewrite H2 by lia. apply H1. exact Hj.
Qed.

(** The loop of safe [encode] writes inside [iter, end) only, and leaves
    [iter] inside the view. *)
Lemma safe_encode_loop_frame fuel n iter end_ (m : store) :
  (iter <= end_)%nat ->
  exists m' r, varint_coder.encode_loop true fuel n iter end_ m = (m', r)
    /\ agree_outside m m' iter end_
    /\ forall it, r = Present it -> (iter < it <= end_)%nat.
Proof.
  revert n iter m. induction fuel as [|fuel IH]; intros n iter m Hle.
  { exists m, Diverges. split; [reflexivity|]. split; [apply agree_outside_refl|discriminate]. }
  cbn [varint_coder.encode_loop andb].
  destruct (iter =? end_)%nat eqn:E.
  { exists m, Absent. split; [reflexivity|]. split; [apply agree_outside_refl|discriminate]. }
  apply Nat.eqb_neq in E. unfold bind at 1, poke.
  destruct (decide (iter < length m)%nat) as [Hi|Hi].
  2:{ exists m, Undefined. split; [reflexivity|]. split; [apply agree_outside_refl|discriminate]. }
  destruct (Z.shiftr n 7 =? 0).
  - eexists _, _. split; [reflexivity|]. split; [apply agree_outside_insert; lia|].
    intros it [= <-]. lia.
  - destruct (IH (Z.shiftr n 7) (S iter) (<[iter := Z.lor 128 (n mod 256)]> m) ltac:(lia))
      as (m' & r & Heq & Hag & Hit).
    exists m', r. split; [exact Heq|]. split.
    + eapply agree_outside_trans; [|apply (agree_outside_insert m iter end_ iter); lia|exact Hag]. lia.
    + intros it Hr. specialize (Hit it Hr). lia.
Qed.

(** With too little room the loop of safe [encode] gives up. *)
Lemma safe_encode_loop_short fuel n iter end_ (m : store) :
  (0 < fuel)%nat -> 0 <= n < 2 ^ (7 * Z.of_nat fuel) ->
  (iter <= end_ <= length m)%nat ->
  (end_ - iter < length (loop_bytes fuel n))%nat ->
  exists m', varint_coder.encode_loop true fuel n iter end_ m = (m', Absent).
Proof.
  revert n iter m. induction fuel as [|fuel IH]; intros n iter m Hf Hn Hv Hs; [lia|].
  cbn [varint_coder.encode_loop andb loop_bytes] in *.
  destruct (iter =? end_)%nat eqn:E; [eexists; reflexivity|].
  apply Nat.eqb_neq in E. unfold bind at 1, poke.
  destruct (decide (iter < length m)%nat) as [Hi|Hi]; [|lia].
  destruct (Z.shiftr n 7 =? 0) eqn:E'; cbn [length] in Hs; [lia|].
  apply Z.eqb_neq in E'. pose proof (shiftr7_bound n fuel Hn) as Hn'.
  assert (0 < fuel)%nat as Hf'.
  { destruct fuel; [|lia]. simpl in Hn'. change (2 ^ 0) with 1 in Hn'. lia. }
  apply IH; [assumption|exact Hn'|rewrite length_insert; lia|lia].
Qed.

(** Safe [encode] writes inside the view only; what it returns is a suffix. *)
Lemma varint_encode_frame w n s (m : store) :
  (b_begin s <= b_end s)%nat ->
  exists m' r, varint_coder.encode w true n s m = (m', r)
    /\ agree_outside m m' (b_begin s) (b_end s)
    /\ forall s', r = Present s' -> suffix_of s' s.
Proof.
  intros Hv. unfold varint_coder.encode. unfold bind at 1.
  destruct (safe_encode_loop_frame (varint_coder.fuel_of w) n (b_begin s) (b_end s) m Hv)
    as (m1 & r & -> & Hag & Hit).
  destruct r as [it| | |];
    try (eexists _, _; split; [reflexivity|]; split; [exact Hag|discriminate]).
  specialize (Hit it eq_refl). unfold bind at 1, peek, load.
  destruct (m1 !! (it - 1)%nat) as [x|];
    [|eexists _, _; split; [reflexivity|]; split; [exact Hag|discriminate]].
  unfold bind, poke, ret. destruct (decide (it - 1 < length m1)%nat);
    [|eexists _, _; split; [reflexivity|]; split; [exact Hag|discriminate]].
  eexists _, _. split; [reflexivity|]. split.
  - apply (agree_outside_trans m m1 _ _ (b_begin s)); [lia|exact Hag|].
    apply agree_outside_insert. lia.
  - intros s' [= <-]. split; simpl; [reflexivity|lia].
Qed.

Lemma safe_decode_loop_suffix w rest iter end_ i acc v it :
  (iter < end_)%nat ->
  varint_coder.decode_loop true w rest iter end_ i acc = Present (v, it) ->
  (iter < it <= end_)%nat.
Proof.
  revert iter i acc. induction rest as [|x rest IH]; intros iter i acc Hlt H; [discriminate|].
  cbn [varint_coder.decode_loop andb] in H. destruct (Z.shiftr x 7 =? 1).
  - destruct (shl w (Z.land x 127) (7 * i)); try discriminate. cbn [rbind] in H.
    destruct (S iter =? end_)%nat eqn:E; [discriminate|]. apply Nat.eqb_neq in E.
    apply IH in H; lia.
  - destruct (shl w x (7 * i)); try discriminate. cbn [rbind] in H.
    injection H as _ <-. lia.
Qed.

Lemma varint_suffix_decoder w : suffix_decoder (varint w).
Proof.
  intros b m v b' Hv H. cbn [decode varint] in H. unfold varint_coder.decode in H.
  cbn [andb] in H. destruct (b_begin b =? b_end b)%nat eqn:E; [discriminate|].
  apply Nat.eqb_neq in E.
  destruct (varint_coder.decode_loop true w (drop (b_begin b) m) (b_begin b) (b_end b) 0 0)
    as [[v0 it]| | |] eqn:Hl; try discriminate.
  cbn [rbind fst snd] in H. injection H as _ <-.
  apply safe_decode_loop_suffix in Hl; [|lia]. split; simpl; [reflexivity|lia].
Qed.

(** ** Decoding up to the first byte with the top bit clear *)

Lemma unsafe_decode_loop_not_absent w rest iter end_ i acc :
  varint_coder.decode_loop false w rest iter end_ i acc <> Absent.
Proof.
  revert iter i acc. induction rest as [|x rest IH]; intros iter i acc; [discriminate|].
  cbn [varint_coder.decode_loop andb]. destruct (Z.shiftr x 7 =? 1).
  - unfold shl. destruct (7 * i <? promoted_bits w); cbn [rbind]; [apply IH|discriminate].
  - unfold shl. destruct (7 * i <? promoted_bits w); cbn [rbind]; discriminate.
Qed.

(** When the terminating byte lies inside the view, the checks of safe mode
    never fire: the loop runs as in unsafe mode. *)
Lemma decode_loop_modes w k rest iter end_ i acc :
  (forall j, (j < k)%nat -> exists x, rest !! j = Some x /\ Z.shiftr x 7 = 1) ->
  (exists t, rest !! k = Some t /\ Z.shiftr t 7 = 0) ->
  (iter + k < end_)%nat ->
  varint_coder.decode_loop true w rest iter end_ i acc
  = varint_coder.decode_loop false w rest iter end_ i acc.
Proof.
  revert rest iter i acc. induction k as [|k IH]; intros rest iter i acc Hrun Ht Hlt.
  - destruct Ht as (t & Ht & Hmsb). destruct rest as [|x rest]; [discriminate|].
    injection Ht as ->. cbn [varint_coder.decode_loop]. rewrite Hmsb. reflexivity.
  - destruct (Hrun 0%nat ltac:(lia)) as (x & Hx & Hmsb).
    destruct rest as [|x' rest]; [discriminate|]. injection Hx as ->.
    cbn [varint_coder.decode_loop andb]. rewrite Hmsb. change (1 =? 1) with true. cbv iota.
    destruct (shl w (Z.land x 127) (7 * i)); cbn [rbind]; try reflexivity.
    assert ((S iter =? end_)%nat = false) as -> by (apply Nat.eqb_neq; lia).
    apply IH; [|exact Ht|lia].
    intros j Hj. apply (Hrun (S j)). lia.
Qed.

(** A run no longer than the promoted operand allows decodes to a value, and
    the cursor stops just past the terminating byte. *)
Lemma decode_loop_present w is_safe k rest iter end_ i acc :
  (forall j, (j < k)%nat -> exists x, rest !! j = Some x /\ Z.shiftr x 7 = 1) ->
  (exists t, rest !! k = Some t /\ Z.shiftr t 7 = 0) ->
  (is_safe = true -> (iter + k < end_)%nat) ->
  7 * (i + Z.of_nat k) < promoted_bits w ->
  exists v, varint_coder.decode_loop is_safe w rest iter end_ i acc
            = Present (v, (iter + k + 1)%nat).
Proof.
  revert rest iter i acc. induction k as [|k IH]; intros rest iter i acc Hrun Ht Hlt Hw.
  - destruct Ht as (t & Ht & Hmsb). destruct rest as [|x rest]; [discriminate|].
    injection Ht as ->. cbn [varint_coder.decode_loop]. rewrite Hmsb.
    change (0 =? 1) with false. cbv iota. unfold shl.
    destruct (7 * i <? promoted_bits w) eqn:E; [|apply Z.ltb_ge in E; lia].
    cbn [rbind]. eexists. do 2 f_equal. lia.
  - destruct (Hrun 0%nat ltac:(lia)) as (x & Hx & Hmsb).
    destruct rest as [|x' rest]; [discriminate|]. injection Hx as ->.
    cbn [varint_coder.decode_loop]. rewrite Hmsb. change (1 =? 1) with true. cbv iota.
    unfold shl at 1. destruct (7 * i <? promoted_bits w) eqn:E; [|apply Z.ltb_ge in E; lia].
    cbn [rbind].
    assert (is_safe && (S iter =? end_)%nat = false) as ->.
    { destruct is_safe; [|reflexivity]. cbn [andb]. apply Nat.eqb_neq.
      specialize (Hlt eq_refl). lia. }
    destruct (IH rest (S iter) (i + 1)
                (Z.lor acc ((Z.land x 127 * 2 ^ (7 * i)) mod 2 ^ bits w))) as (v & Hv).
    + intros j Hj. apply (Hrun (S j)). lia.
    + exact Ht.
    + intros Hs. specialize (Hlt Hs). lia.
    + lia.
    + exists v. rewrite Hv. do 2 f_equal. lia.
Qed.

Lemma terminator_in_rest (m : store) s k :
  terminator_at m s k ->
  (forall j, (j < k)%nat ->
     exists x, drop (b_begin s) m !! j = Some x /\ Z.shiftr x 7 = 1)
  /\ (exists t, drop (b_begin s) m !! k = Some t /\ Z.shiftr t 7 = 0)
  /\ (b_begin s + k < b_end s)%nat.
Proof.
  intros (Hlt & Hrun & Ht). repeat split; [|setoid_rewrite lookup_drop; exact Ht|exact Hlt].
  intros j Hj. rewrite lookup_drop. apply Hrun. exact Hj.
Qed.

Lemma terminator_not_empty (m : store) s k :
  terminator_at m s k -> (b_begin s =? b_end s)%nat = false.
Proof. intros (Hlt & _). apply Nat.eqb_neq. lia. Qed.

(** Safe and unsafe [decode] agree whenever the terminating byte lies inside
    the view. *)
Lemma varint_decode_modes w (m : store) s k :
  terminator_at m s k ->
  varint_coder.decode w true s m = varint_coder.decode w false s m.
Proof.
  intros H. pose proof (terminator_not_empty m s k H) as He.
  destruct (terminator_in_rest m s k H) as (Hrun & Ht & Hlt).
  unfold varint_coder.decode. rewrite He. cbn [andb].
  rewrite (decode_loop_modes w k) by assumption. reflexivity.
Qed.

Lemma varint_decode_present w is_safe (m : store) s k :
  terminator_at m s k -> 7 * Z.of_nat k < promoted_bits w ->
  exists v, varint_coder.decode w is_safe s m
            = Present (v, mk_bytes (b_begin s + k + 1) (b_end s)).
Proof.
  intros H Hw. pose proof (terminator_not_empty m s k H) as He.
  destruct (terminator_in_rest m s k H) as (Hrun & Ht & Hlt).
  unfold varint_coder.decode. rewrite He, andb_false_r.
  destruct (decode_loop_present w is_safe k (drop (b_begin s) m) (b_begin s) (b_end s) 0 0
              Hrun Ht (fun _ => Hlt) ltac:(lia)) as (v & ->).
  exists v. reflexivity.
Qed.

Lemma varint_decode_not_absent w (m : store) s k :
  terminator_at m s k -> varint_coder.decode w true s m <> Absent.
Proof.
  intros H. rewrite (varint_decode_modes w m s k H).
  pose proof (terminator_not_empty m s k H) as He.
  unfold varint_coder.decode. cbn [andb].
  pose proof (unsafe_decode_loop_not_absent w (drop (b_begin s) m) (b_begin s) (b_end s) 0 0).
  destruct (varint_coder.decode_loop false w _ _ _ 0 0); try discriminate. congruence.
Qed.

(** ** The coders that keep the encoding law *)

#[export] Instance varint_lawful w : lawful_encoder (varint w) (in_range w) (varint_wire w).
Proof.
  split.
  - intros v Hv. apply varint_encode_skip_spec. exact Hv.
  - intros is_safe v b m Hv Hroom. apply varint_encode_spec; [exact Hv|lia|intros _; lia].
Qed.

(** ** The array coder *)

Section array_facts.

Context (C : coder) `{!skipper C}.

Lemma decode_loop_unfold is_safe fuel len origin_b b con (m : store) :
  array_coder.decode_loop C is_safe fuel len origin_b b con m
  = if to_unsigned W64 (begin_diff b origin_b) <? len then
      match fuel with
      | O => Diverges
      | S fuel' =>
          let? decode_v := decode C is_safe b m in
          array_coder.decode_loop C is_safe fuel' len origin_b decode_v.2
            (con ++ [decode_v.1]) m
      end
    else Present (con, b).
Proof. destruct fuel; reflexivity. Qed.

Lemma suffix_of_refl b : (b_begin b <= b_end b)%nat -> suffix_of b b.
Proof. intros H. split; [reflexivity|lia]. Qed.

Lemma suffix_of_trans b1 b2 b3 : suffix_of b1 b2 -> suffix_of b2 b3 -> suffix_of b1 b3.
Proof. intros [He1 H1] [He2 H2]. split; [congruence|lia]. Qed.

(** The loop of safe [decode] leaves only once [len] bytes or more are
    consumed, and never leaves the view. *)
Lemma safe_decode_loop_inv fuel len origin_b b con (m : store) con' b' :
  suffix_decoder C -> suffix_of b origin_b ->
  array_coder.decode_loop C true fuel len origin_b b con m = Present (con', b') ->
  suffix_of b' origin_b /\ len <= begin_diff b' origin_b.
Proof.
  intros Hsuf. revert b con. induction fuel as [|fuel IH]; intros b con Hb H;
    rewrite decode_loop_unfold in H;
    destruct (to_unsigned W64 (begin_diff b origin_b) <? len) eqn:E; try discriminate.
  - injection H as <- <-. split; [exact Hb|]. apply Z.ltb_ge in E.
    unfold to_unsigned in E. destruct Hb as [_ Hb]. unfold begin_diff in *.
    pose proof (Z.mod_le (Z.of_nat (b_begin b) - Z.of_nat (b_begin origin_b)) (2 ^ bits W64)
                  ltac:(lia) ltac:(reflexivity)). lia.
  - destruct (decode C true b m) as [[v b1]| | |] eqn:Hd; try discriminate.
    cbn [rbind fst snd] in H. apply IH in H; [exact H|].
    apply suffix_of_trans with b; [|exact Hb]. apply (Hsuf b m v b1); [|exact Hd].
    destruct Hb as [_ Hb]. lia.
  - injection H as <- <-. split; [exact Hb|]. apply Z.ltb_ge in E.
    unfold to_unsigned in E. destruct Hb as [_ Hb]. unfold begin_diff in *.
    pose proof (Z.mod_le (Z.of_nat (b_begin b) - Z.of_nat (b_begin origin_b)) (2 ^ bits W64)
                  ltac:(lia) ltac:(reflexivity)). lia.
Qed.

(** With a coder that consumes something for every element, the rounds the
    model allows are enough. *)
Lemma safe_decode_loop_ends fuel len origin_b b con (m : store) :
  suffix_decoder C -> progressing_decoder C -> suffix_of b origin_b ->
  Z.of_nat (b_end origin_b) < 2 ^ 64 ->
  len - begin_diff b origin_b <= Z.of_nat fuel ->
  array_coder.decode_loop C true fuel len origin_b b con m <> Diverges.
Proof.
  intros Hsuf Hprog. revert b con.
  induction fuel as [|fuel IH]; intros b con Hb Hend Hfuel;
    rewrite decode_loop_unfold;
    destruct (to_unsigned W64 (begin_diff b origin_b) <? len) eqn:E; try discriminate;
    apply Z.ltb_lt in E; unfold to_unsigned in E;
    pose proof Hb as [Hbe Hbb]; unfold begin_diff in *;
    change (2 ^ bits W64) with (2 ^ 64) in E;
    rewrite Z.mod_small in E by lia.
  - lia.
  - pose proof (Hprog b m) as Hp.
    destruct (decode C true b m) as [[v b1]| | |] eqn:Hd; cbn [rbind fst snd] in *;
      try discriminate; [|contradiction].
    assert (suffix_of b1 origin_b) as Hb1.
    { apply suffix_of_trans with b; [|exact Hb]. apply (Hsuf b m v b1); [lia|exact Hd]. }
    apply IH; [exact Hb1|exact Hend|lia].
Qed.

End array_facts.

Section array_encode_facts.

Context (C : coder) `{!skipper C}.
Context (domain : value_type C -> Prop) (wire : value_type C -> list byte).
Context `{!lawful_encoder C domain wire}.

Lemma skip_sum_spec con n :
  Forall domain con ->
  0 <= n -> n + Z.of_nat (length (array_payload wire con)) < 2 ^ 64 ->
  array_coder.skip_sum C con n
  = Present (n + Z.of_nat (length (array_payload wire con))).
Proof.
  intros Hdom. revert n. induction Hdom as [|i con Hi Hcon IH]; intros n Hn Hfit.
  - cbn. f_equal. lia.
  - cbn [array_coder.skip_sum array_payload map concat] in *.
    fold (array_payload wire con) in *. rewrite length_app in *.
    rewrite (encode_skip_wire i Hi). cbn [rbind].
    rewrite Z.mod_small by lia. rewrite IH by lia. f_equal. lia.
Qed.

Lemma payload_size_spec con :
  Forall domain con ->
  payload_size C con = Z.of_nat (length (array_payload wire con)).
Proof.
  induction 1 as [|i con Hi Hcon IH]; [reflexivity|].
  cbn [payload_size array_payload map concat]. fold (array_payload wire con).
  rewrite (encode_skip_wire i Hi), IH, length_app. lia.
Qed.

Lemma encode_elements_spec is_safe con safe_b (m : store) :
  Forall domain con ->
  (b_begin safe_b + length (array_payload wire con) <= b_end safe_b <= length m)%nat ->
  array_coder.encode_elements C is_safe con safe_b m
  = (written m (b_begin safe_b) (array_payload wire con),
     Present (mk_bytes (b_begin safe_b + length (array_payload wire con)) (b_end safe_b))).
Proof.
  intros Hdom. revert safe_b m.
  induction Hdom as [|i con Hi Hcon IH]; intros safe_b m Hroom.
  - cbn. unfold ret. rewrite written_nil, Nat.add_0_r. destruct safe_b; reflexivity.
  - cbn [array_coder.encode_elements array_payload map concat] in *.
    fold (array_payload wire con) in *. rewrite length_app in *.
    unfold bind. rewrite (encode_wire is_safe i safe_b m Hi) by lia.
    rewrite IH by (cbn [b_begin b_end]; rewrite written_length; lia).
    cbn [b_begin b_end]. rewrite written_app by lia. f_equal. f_equal. f_equal. lia.
Qed.

(** [array_coder.encode], given room, writes the length prefix and then the
    elements, as long as the lengths fit the 64-bit counters. *)
Lemma array_encode_spec is_safe con b (m : store) :
  Forall domain con ->
  Z.of_nat (length (array_wire wire con)) < 2 ^ 64 ->
  (b_begin b + length (array_wire wire con) <= b_end b <= length m)%nat ->
  array_coder.encode C is_safe con b m
  = (written m (b_begin b) (array_wire wire con),
     Present (mk_bytes (b_begin b + length (array_wire wire con)) (b_end b))).
Proof.
  intros Hdom Hm Hroom. unfold array_wire in *. rewrite length_app in Hroom, Hm.
  set (L := Z.of_nat (length (array_payload wire con))) in *.
  assert (in_range W64 L) as HL by (split; [lia|change (2 ^ bits W64) with (2 ^ 64); lia]).
  unfold array_coder.encode. unfold bind at 1, lift.
  rewrite (skip_sum_spec con 0 Hdom) by lia. rewrite Z.add_0_l. fold L.
  unfold bind. rewrite varint_encode_spec by (try exact HL; try lia).
  rewrite encode_elements_spec
    by (try exact Hdom; cbn [b_begin b_end]; rewrite written_length; lia).
  cbn [b_begin b_end]. rewrite written_app by lia. rewrite length_app.
  f_equal. f_equal. f_equal. lia.
Qed.

Lemma array_encode_skip_spec con :
  Forall domain con ->
  Z.of_nat (length (array_wire wire con)) < 2 ^ 64 ->
  skipper_array_coder.encode_skip C con
  = Present (Z.of_nat (length (array_wire wire con))).
Proof.
  intros Hdom Hfit. unfold array_wire in *. rewrite length_app in *.
  set (L := Z.of_nat (length (array_payload wire con))) in *.
  assert (in_range W64 L) as HL by (split; [lia|change (2 ^ bits W64) with (2 ^ 64); lia]).
  unfold skipper_array_coder.encode_skip.
  rewrite (skip_sum_spec con 0 Hdom) by lia. rewrite Z.add_0_l. fold L. cbn [rbind].
  rewrite varint_encode_skip_spec by exact HL. cbn [rbind].
  rewrite Z.mod_small by lia. f_equal. lia.
Qed.

End array_encode_facts.

(** ** More coders that keep the laws *)

Lemma as_unsigned_in_range t v : int_range t v -> in_range (int_width t) (as_unsigned t v).
Proof.
  unfold int_range, as_unsigned, in_range, to_unsigned. destruct (is_signed t); [|tauto].
  intros Hv. apply Z.mod_pos_bound. apply Z.pow_pos_nonneg; [lia|].
  pose proof (bits_pos (int_width t)). lia.
Qed.

#[export] Instance enum_lawful t : lawful_encoder (enum t) (int_range t) (enum_wire t).
Proof.
  split.
  - intros v Hv. pose proof (as_unsigned_in_range t v Hv) as Hu.
    cbn [encode_skip skipper_enum]. unfold skipper_enum_coder.encode_skip, varint_encode_skip,
      skipper_varint_coder_signed.encode_skip, enum_wire, as_unsigned in *.
    destruct (is_signed t); apply varint_encode_skip_spec; exact Hu.
  - intros is_safe v b m Hv Hroom. pose proof (as_unsigned_in_range t v Hv) as Hu.
    cbn [encode enum]. unfold enum_coder.encode, varint_encode,
      varint_coder_signed.encode, enum_wire, as_unsigned in *.
    destruct (is_signed t); (apply varint_encode_spec; [exact Hu|lia|intros _; lia]).
Qed.

#[export] Instance array_lawful (C : coder) `{!skipper C} domain wire
    `{!lawful_encoder C domain wire} :
  lawful_encoder (array C) (array_domain domain wire) (array_wire wire).
Proof.
  split.
  - intros con [Hdom Hfit]. apply (array_encode_skip_spec C domain wire); assumption.
  - intros is_safe con b m [Hdom Hfit] Hroom.
    apply (array_encode_spec C domain wire); assumption.
Qed.

Lemma enum_suffix_decoder t : suffix_decoder (enum t).
Proof.
  intros b m v b' Hv H. cbn [decode enum] in H.
  unfold enum_coder.decode, varint_decode, varint_coder_signed.decode in H.
  destruct (is_signed t);
    destruct (varint_coder.decode (int_width t) true b m) as [[v0 b0]| | |] eqn:Hd;
    try discriminate; cbn [rbind fst snd] in H; injection H as _ <-;
    apply (varint_suffix_decoder (int_width t) b m v0 b0 Hv Hd).
Qed.

(** ** The skip law of the varint skipper *)

Lemma decode_skip_loop_wire fuel n is_safe rest iter end_ :
  (0 < fuel)%nat -> 0 <= n < 2 ^ (7 * Z.of_nat fuel) ->
  (is_safe = true -> (iter + length (leb128 fuel n) <= end_)%nat) ->
  skipper_varint_coder.decode_skip_loop is_safe (leb128 fuel n ++ rest) iter end_
  = Present (iter + length (leb128 fuel n))%nat.
Proof.
  revert n iter. induction fuel as [|fuel IH]; intros n iter Hf Hn He; [lia|].
  cbn [leb128] in *. destruct (Z.shiftr n 7 =? 0) eqn:E.
  - apply Z.eqb_eq in E. pose proof (shiftr7_zero n ltac:(lia) E) as Hsmall.
    rewrite last_byte by lia. cbn [app skipper_varint_coder.decode_skip_loop length].
    rewrite E. change (0 =? 1) with false. cbv iota. f_equal. lia.
  - apply Z.eqb_neq in E. pose proof (shiftr7_bound n fuel Hn) as Hn'.
    assert (0 < fuel)%nat as Hf'.
    { destruct fuel; [|lia]. simpl in Hn'. change (2 ^ 0) with 1 in Hn'. lia. }
    pose proof (Z.mod_pos_bound n 256 ltac:(lia)) as Hm256.
    cbn [app skipper_varint_coder.decode_skip_loop length] in *.
    rewrite cont_byte_msb by lia. change (1 =? 1) with true. cbv iota.
    assert (is_safe && (S iter =? end_)%nat = false) as ->.
    { destruct is_safe; [|reflexivity]. cbn [andb]. apply Nat.eqb_neq.
      specialize (He eq_refl). rewrite leb128_length in He.
      pose proof (loop_bytes_length fuel (Z.shiftr n 7) Hf'). lia. }
    rewrite IH; [|assumption|exact Hn'|intros Hs; specialize (He Hs); lia].
    f_equal. lia.
Qed.

(** [decode_skip] of the varint skipper steps over exactly what [encode]
    wrote: it returns the view [decode] returns. *)
Lemma varint_skip_law w is_safe n s (m : store) :
  in_range w n ->
  (b_begin s + length (varint_wire w n) <= b_end s <= length m)%nat ->
  decode_skip (varint w) is_safe s (written m (b_begin s) (varint_wire w n))
  = Present (mk_bytes (b_begin s + length (varint_wire w n)) (b_end s)).
Proof.
  intros Hn Hroom. pose proof (varint_wire_nonempty w n) as Hne.
  cbn [decode_skip skipper_varint]. unfold skipper_varint_coder.decode_skip.
  assert (is_safe && (b_begin s =? b_end s)%nat = false) as ->.
  { destruct is_safe; [|reflexivity]. cbn [andb]. apply Nat.eqb_neq. lia. }
  rewrite written_drop by lia. unfold varint_wire in *.
  rewrite decode_skip_loop_wire;
    [reflexivity|apply fuel_of_pos|apply range_fuel; exact Hn|intros _; lia].
Qed.

(** Safe [decode] is absent only when no byte of the view has the top bit
    clear: the view is empty, or the continuation run reaches its end. *)
Lemma safe_decode_loop_absent w rest iter end_ i acc :
  varint_coder.decode_loop true w rest iter end_ i acc = Absent ->
  forall j, (iter + j < end_)%nat -> exists x, rest !! j = Some x /\ Z.shiftr x 7 = 1.
Proof.
  revert iter i acc. induction rest as [|x rest IH]; intros iter i acc H j Hj; [discriminate|].
  cbn [varint_coder.decode_loop andb] in H. unfold shl in H.
  destruct (Z.shiftr x 7 =? 1) eqn:Ex, (7 * i <? promoted_bits w);
    cbn [rbind] in H; try discriminate.
  apply Z.eqb_eq in Ex. destruct j as [|j]; [exists x; split; [reflexivity|exact Ex]|].
  destruct (S iter =? end_)%nat eqn:E.
  - apply Nat.eqb_eq in E. lia.
  - apply (IH (S iter) _ _ H j). lia.
Qed.

Lemma varint_decode_absent_only w s (m : store) :
  varint_coder.decode w true s m = Absent ->
  forall j, (b_begin s <= j < b_end s)%nat -> exists x, m !! j = Some x /\ Z.shiftr x 7 = 1.
Proof.
  intros H j Hj. unfold varint_coder.decode in H. cbn [andb] in H.
  destruct (b_begin s =? b_end s)%nat eqn:E; [apply Nat.eqb_eq in E; lia|].
  destruct (varint_coder.decode_loop true w (drop (b_begin s) m) (b_begin s) (b_end s) 0 0)
    eqn:Hl; try discriminate.
  pose proof (safe_decode_loop_absent w _ _ _ _ _ Hl (j - b_begin s)%nat ltac:(lia)) as Hx.
  rewrite lookup_drop in Hx. replace (b_begin s + (j - b_begin s))%nat with j in Hx by lia.
  exact Hx.
Qed.

(** The loop of [encode] ends on every value of the type: the fuel of the
    model is never used up. *)
Lemma encode_loop_ends is_safe fuel n iter end_ (m : store) :
  (0 < fuel)%nat -> 0 <= n < 2 ^ (7 * Z.of_nat fuel) ->
  (varint_coder.encode_loop is_safe fuel n iter end_ m).2 <> Diverges.
Proof.
  revert n iter m. induction fuel as [|fuel IH]; intros n iter m Hf Hn; [lia|].
  cbn [varint_coder.encode_loop].
  destruct (is_safe && (iter =? end_)%nat); [discriminate|].
  unfold bind at 1, poke. destruct (decide (iter < length m)%nat); [|discriminate].
  destruct (Z.shiftr n 7 =? 0) eqn:E; [discriminate|].
  apply Z.eqb_neq in E. pose proof (shiftr7_bound n fuel Hn) as Hn'.
  assert (0 < fuel)%nat as Hf'.
  { destruct fuel; [|lia]. simpl in Hn'. change (2 ^ 0) with 1 in Hn'. lia. }
  apply IH; assumption.
Qed.

Lemma varint_encode_ends w is_safe n s (m : store) :
  in_range w n -> (varint_coder.encode w is_safe n s m).2 <> Diverges.
Proof.
  intros Hn. unfold varint_coder.encode. unfold bind at 1.
  pose proof (encode_loop_ends is_safe (varint_coder.fuel_of w) n (b_begin s) (b_end s) m
                (fuel_of_pos w) (range_fuel w n Hn)) as Hl.
  destruct (varint_coder.encode_loop is_safe (varint_coder.fuel_of w) n (b_begin s) (b_end s) m)
    as [m1 [it| | |]]; cbn [snd] in *; try discriminate; [|congruence].
  unfold bind at 1, peek, load. destruct (m1 !! (it - 1)%nat); [|discriminate].
  unfold bind, poke, ret. destruct (decide (it - 1 < length m1)%nat); discriminate.
Qed.

(** ** The laws of the varint coder *)

Lemma varint_room w n s (m : store) :
  in_range w n ->
  (b_begin s + Z.to_nat (varint_len n) <= b_end s <= length m)%nat ->
  length (varint_wire w n) = Z.to_nat (varint_len n)
  /\ (b_begin s + length (varint_wire w n) <= b_end s <= length m)%nat.
Proof.
  intros Hn Hroom. pose proof (varint_wire_length w n Hn).
  assert (length (varint_wire w n) = Z.to_nat (varint_len n)) as -> by lia.
  split; [reflexivity|exact Hroom].
Qed.

Lemma window_written (m : store) s l :
  (b_begin s <= length m)%nat -> window (written m (b_begin s) l) s (length l) = l.
Proof.
  intros H. unfold window. rewrite written_drop by exact H. apply take_app_length.
Qed.

(** C1: for every value [n] of the unsigned type and every view with room for
    its encoding, in either mode, decoding what [encode] wrote gives back [n],
    and [decode] returns the very view [encode] returned: both advance by the
    same number of bytes. *)
Theorem varint_round_trip w enc_safe dec_safe n s (m : store) :
  in_range w n ->
  (b_begin s + Z.to_nat (varint_len n) <= b_end s <= length m)%nat ->
  exists m' s',
    varint_coder.encode w enc_safe n s m = (m', Present s')
    /\ varint_coder.decode w dec_safe s m' = Present (n, s')
    /\ begin_diff s' s = varint_len n.
Proof.
  intros Hn Hroom. destruct (varint_room w n s m Hn Hroom) as [Hlen Hroom'].
  eexists _, _. split; [|split].
  - apply varint_encode_spec; [exact Hn|lia|intros _; lia].
  - apply varint_decode_written; [exact Hn|lia|intros _; lia].
  - unfold begin_diff. cbn [b_begin]. pose proof (varint_wire_length w n Hn). lia.
Qed.

Lemma varint_round_trip_witness :
  exists m' s',
    varint_coder.encode W32 true 150 (mk_bytes 0 2) [0; 0] = (m', Present s')
    /\ varint_coder.decode W32 true (mk_bytes 0 2) m' = Present (150, s')
    /\ begin_diff s' (mk_bytes 0 2) = varint_len 150.
Proof.
  apply (varint_round_trip W32 true true 150 (mk_bytes 0 2) [0; 0]).
  - unfold in_range. vm_compute. split; [discriminate|reflexivity].
  - vm_compute. lia.
Defined.

(** C7: the varint of [n] takes max(1, ceil(bitlen(n) / 7)) bytes, which is
    what [encode_skip] reports; every byte but the last has the top bit set,
    the last has it clear; zero is the single byte 0. *)
Theorem varint_canonical_form w is_safe n s (m : store) :
  in_range w n ->
  (b_begin s + Z.to_nat (varint_len n) <= b_end s <= length m)%nat ->
  exists m' s',
    varint_coder.encode w is_safe n s m = (m', Present s')
    /\ begin_diff s' s = Z.max 1 ((bitlen n + 6) / 7)
    /\ skipper_varint_coder.encode_skip w n = Present (begin_diff s' s)
    /\ varint_shape (window m' s (Z.to_nat (begin_diff s' s)))
    /\ (n = 0 -> window m' s (Z.to_nat (begin_diff s' s)) = [0]).
Proof.
  intros Hn Hroom. destruct (varint_room w n s m Hn Hroom) as [Hlen Hroom'].
  pose proof (varint_wire_length w n Hn) as Hwl.
  eexists _, _. split; [apply varint_encode_spec; [exact Hn|lia|intros _; lia]|].
  assert (begin_diff (mk_bytes (b_begin s + length (varint_wire w n)) (b_end s)) s
          = varint_len n) as Hd by (unfold begin_diff; cbn [b_begin]; lia).
  rewrite Hd, <- Hlen. rewrite window_written by lia.
  split; [reflexivity|]. split; [|split].
  - rewrite varint_encode_skip_spec by exact Hn. f_equal. exact Hwl.
  - apply leb128_shape; [apply fuel_of_pos|apply range_fuel; exact Hn].
  - intros ->. apply leb128_zero, fuel_of_pos.
Qed.

Lemma varint_canonical_form_witness :
  exists m' s',
    varint_coder.encode W64 false 0 (mk_bytes 1 3) [9; 9; 9] = (m', Present s')
    /\ begin_diff s' (mk_bytes 1 3) = Z.max 1 ((bitlen 0 + 6) / 7)
    /\ skipper_varint_coder.encode_skip W64 0 = Present (begin_diff s' (mk_bytes 1 3))
    /\ varint_shape (window m' (mk_bytes 1 3) (Z.to_nat (begin_diff s' (mk_bytes 1 3))))
    /\ (0 = 0 -> window m' (mk_bytes 1 3) (Z.to_nat (begin_diff s' (mk_bytes 1 3))) = [0]).
Proof.
  apply (varint_canonical_form W64 false 0 (mk_bytes 1 3) [9; 9; 9]).
  - unfold in_range. vm_compute. split; [discriminate|reflexivity].
  - vm_compute. lia.
Defined.

(** C8: on a view with room, safe and unsafe [encode] leave the same store
    and return the same view; on a view that holds a complete varint of the
    type (a terminating byte within the first ceil(bitwidth / 7) bytes), safe
    and unsafe [decode] return the same value and the same view. *)
Theorem varint_safe_unsafe_agree w n s (m : store) s2 (m2 : store) k :
  in_range w n ->
  (b_begin s + Z.to_nat (varint_len n) <= b_end s <= length m)%nat ->
  terminator_at m2 s2 k -> 7 * Z.of_nat k < bits w ->
  (exists m' s',
      varint_coder.encode w true n s m = (m', Present s')
      /\ varint_coder.encode w false n s m = (m', Present s'))
  /\ (exists v s2',
      varint_coder.decode w true s2 m2 = Present (v, s2')
      /\ varint_coder.decode w false s2 m2 = Present (v, s2')).
Proof.
  intros Hn Hroom Ht Hk. destruct (varint_room w n s m Hn Hroom) as [Hlen Hroom']. split.
  - eexists _, _.
    split; (apply varint_encode_spec; [exact Hn|lia|intros _; lia]).
  - pose proof (bits_le_promoted w).
    destruct (varint_decode_present w true m2 s2 k Ht ltac:(lia)) as (v & Hv).
    exists v, (mk_bytes (b_begin s2 + k + 1) (b_end s2)). split; [exact Hv|].
    rewrite <- (varint_decode_modes w m2 s2 k Ht). exact Hv.
Qed.

Lemma terminator_at_example : terminator_at [5; 150; 1; 9] (mk_bytes 1 4) 1.
Proof.
  split; [simpl; lia|]. split.
  - intros j Hj. assert (j = 0)%nat as -> by lia. exists 150. split; reflexivity.
  - exists 1. split; reflexivity.
Defined.

Lemma varint_safe_unsafe_agree_witness :
  (exists m' s',
      varint_coder.encode W32 true 300 (mk_bytes 0 2) [0; 0] = (m', Present s')
      /\ varint_coder.encode W32 false 300 (mk_bytes 0 2) [0; 0] = (m', Present s'))
  /\ (exists v s2',
      varint_coder.decode W32 true (mk_bytes 1 4) [5; 150; 1; 9] = Present (v, s2')
      /\ varint_coder.decode W32 false (mk_bytes 1 4) [5; 150; 1; 9] = Present (v, s2')).
Proof.
  apply (varint_safe_unsafe_agree W32 300 (mk_bytes 0 2) [0; 0]
           (mk_bytes 1 4) [5; 150; 1; 9] 1%nat).
  - unfold in_range. vm_compute. split; [discriminate|reflexivity].
  - vm_compute. lia.
  - exact terminator_at_example.
  - vm_compute. reflexivity.
Defined.

(** C9: safe [encode] into a view shorter than the encoding returns an absent
    result, and the store is unchanged outside the view: nothing is written
    at or past its end. *)
Theorem varint_encode_short_buffer w n s (m : store) :
  in_range w n -> view_in s m -> Z.of_nat (size s) < varint_len n ->
  exists m',
    varint_coder.encode w true n s m = (m', Absent)
    /\ agree_outside m m' (b_begin s) (b_end s).
Proof.
  intros Hn [Hv1 Hv2] Hshort.
  destruct (varint_encode_frame w n s m Hv1) as (m' & r & Heq & Hag & _).
  exists m'. split; [|exact Hag]. rewrite Heq. f_equal.
  unfold varint_coder.encode in Heq. unfold bind at 1 in Heq.
  destruct (safe_encode_loop_short (varint_coder.fuel_of w) n (b_begin s) (b_end s) m)
    as (m1 & Hl).
  - apply fuel_of_pos.
  - apply range_fuel. exact Hn.
  - lia.
  - pose proof (varint_wire_length w n Hn) as Hwl. unfold varint_wire in Hwl.
    rewrite leb128_length in Hwl. unfold size in Hshort. lia.
  - rewrite Hl in Heq. congruence.
Qed.

Lemma varint_encode_short_buffer_witness :
  exists m',
    varint_coder.encode W32 true 150 (mk_bytes 0 1) [0; 7; 7] = (m', Absent)
    /\ agree_outside [0; 7; 7] m' 0 1.
Proof.
  apply (varint_encode_short_buffer W32 150 (mk_bytes 0 1) [0; 7; 7]).
  - unfold in_range. vm_compute. split; [discriminate|reflexivity].
  - unfold view_in. simpl. lia.
  - vm_compute. reflexivity.
Defined.

(** ** No width bound in the varint decoder *)

(** C2, as the code has it: safe [decode] applies no width bound.  Whenever a
    byte with the top bit clear lies inside the view, however long the run of
    continuation bytes before it, the result is not absent; when the run is
    short enough for the shifts to be defined, the result is a value and the
    view just past the terminating byte. *)
Theorem varint_decode_no_width_bound w (m : store) s k :
  terminator_at m s k ->
  varint_coder.decode w true s m <> Absent
  /\ (7 * Z.of_nat k < promoted_bits w ->
      exists v, varint_coder.decode w true s m
                = Present (v, mk_bytes (b_begin s + k + 1) (b_end s))).
Proof.
  intros Ht. split.
  - apply (varint_decode_not_absent w m s k Ht).
  - intros Hk. apply (varint_decode_present w true m s k Ht Hk).
Qed.

Lemma long_run_terminated : terminator_at [129; 128; 128; 128; 1] (mk_bytes 0 5) 4.
Proof.
  split; [simpl; lia|]. split.
  - intros j Hj. destruct j as [|[|[|[|j]]]]; try lia;
      eexists; (split; [reflexivity|reflexivity]).
  - exists 1. split; reflexivity.
Defined.

Lemma varint_decode_no_width_bound_witness :
  varint_coder.decode W16 true (mk_bytes 0 5) [129; 128; 128; 128; 1] <> Absent
  /\ (7 * Z.of_nat 4 < promoted_bits W16 ->
      exists v, varint_coder.decode W16 true (mk_bytes 0 5) [129; 128; 128; 128; 1]
                = Present (v, mk_bytes (0 + 4 + 1) 5)).
Proof.
  apply (varint_decode_no_width_bound W16 [129; 128; 128; 128; 1] (mk_bytes 0 5) 4%nat).
  exact long_run_terminated.
Defined.

(** C2 as stated fails: for a 16-bit type the bound is 3 bytes, yet a run of
    four continuation bytes followed by a terminating byte inside the view is
    decoded, not rejected. *)
Lemma long_run_accepted :
  width_bound W16 = 3
  /\ Forall (fun x => Z.shiftr x 7 = 1) (take 4 [129; 128; 128; 128; 1])
  /\ varint_coder.decode W16 true (mk_bytes 0 5) [129; 128; 128; 128; 1]
     = Present (1, mk_bytes 5 5).
Proof.
  split; [reflexivity|]. split; [|vm_compute; reflexivity].
  repeat constructor.
Qed.

(** The specification's own example of the bound, 5 bytes for a 32-bit type:
    a sixth byte is shifted by 35 in a 32-bit operand, which has no defined
    behaviour; the decoder does not return an absent result there either. *)
Example long_run_32 :
  varint_coder.decode W32 true (mk_bytes 0 6) [128; 128; 128; 128; 128; 1] = Undefined.
Proof. vm_compute. reflexivity. Qed.

(** ** Signed values *)

Lemma negative_to_unsigned w n :
  - 2 ^ (bits w - 1) <= n < 0 ->
  2 ^ (bits w - 1) <= to_unsigned w n < 2 ^ bits w.
Proof.
  intros Hn. unfold to_unsigned. pose proof (bits_pos w).
  assert (2 ^ bits w = 2 * 2 ^ (bits w - 1)) as Hp.
  { replace (bits w) with (1 + (bits w - 1)) at 1 by lia. rewrite Z.pow_add_r by lia. reflexivity. }
  assert (0 < 2 ^ (bits w - 1)) by (apply Z.pow_pos_nonneg; lia).
  replace n with ((n + 2 ^ bits w) + (-1) * 2 ^ bits w) by lia.
  rewrite Z.mod_add by lia. rewrite Z.mod_small by lia. lia.
Qed.

Lemma varint_len_top_bit w u :
  2 ^ (bits w - 1) <= u < 2 ^ bits w -> varint_len u = width_bound w.
Proof.
  intros Hu. pose proof (bits_pos w).
  assert (0 < 2 ^ (bits w - 1)) by (apply Z.pow_pos_nonneg; lia).
  assert (Z.log2 u = bits w - 1) as Hlog.
  { apply Z.log2_unique; [lia|]. replace (Z.succ (bits w - 1)) with (bits w) by lia. exact Hu. }
  unfold varint_len, bitlen, width_bound.
  destruct (u =? 0) eqn:E; [apply Z.eqb_eq in E; lia|].
  rewrite Hlog. replace (bits w - 1 + 1) with (bits w) by lia.
  apply Z.max_r. destruct w; vm_compute; discriminate.
Qed.

(** C3, as the code has it: a negative value of a signed type is converted to
    the unsigned type of the same width, with no sign extension to 64 bits,
    so its varint takes ceil(bitwidth / 7) bytes: 5 for a 32-bit type (and 10
    only for a 64-bit one). *)
Theorem signed_negative_length w is_safe n s (m : store) :
  - 2 ^ (bits w - 1) <= n < 0 ->
  (b_begin s + Z.to_nat (width_bound w) <= b_end s <= length m)%nat ->
  exists m' s',
    varint_coder_signed.encode w is_safe n s m = (m', Present s')
    /\ begin_diff s' s = width_bound w
    /\ skipper_varint_coder_signed.encode_skip w n = Present (width_bound w).
Proof.
  intros Hn Hroom. pose proof (negative_to_unsigned w n Hn) as Hu.
  pose proof (varint_len_top_bit w _ Hu) as Hlen.
  assert (in_range w (to_unsigned w n)) as Hr.
  { split; [|lia]. pose proof (bits_pos w).
    assert (0 < 2 ^ (bits w - 1)) by (apply Z.pow_pos_nonneg; lia). lia. }
  rewrite <- Hlen in *.
  destruct (varint_room w (to_unsigned w n) s m Hr Hroom) as [Hwl Hroom'].
  pose proof (varint_wire_length w _ Hr) as Hwl'.
  unfold varint_coder_signed.encode, skipper_varint_coder_signed.encode_skip.
  eexists _, _. split; [apply varint_encode_spec; [exact Hr|lia|intros _; lia]|].
  split.
  - unfold begin_diff. cbn [b_begin]. lia.
  - rewrite varint_encode_skip_spec by exact Hr. f_equal. exact Hwl'.
Qed.

Lemma signed_negative_length_witness :
  exists m' s',
    varint_coder_signed.encode W32 true (-1) (mk_bytes 0 10) (replicate 10 0)
    = (m', Present s')
    /\ begin_diff s' (mk_bytes 0 10) = width_bound W32
    /\ skipper_varint_coder_signed.encode_skip W32 (-1) = Present (width_bound W32).
Proof.
  apply (signed_negative_length W32 true (-1) (mk_bytes 0 10) (replicate 10 0)).
  - vm_compute. split; discriminate || reflexivity.
  - vm_compute. lia.
Defined.

(** C3 as stated fails: -1 of a signed 32-bit type is written as 5 bytes, not
    10. *)
Lemma signed_minus_one_five_bytes :
  varint_coder_signed.encode W32 true (-1) (mk_bytes 0 10) (replicate 10 0)
  = ([255; 255; 255; 255; 15; 0; 0; 0; 0; 0], Present (mk_bytes 5 10))
  /\ begin_diff (mk_bytes 5 10) (mk_bytes 0 10) <> 10.
Proof. split; [vm_compute; reflexivity|vm_compute; discriminate]. Qed.

(** ** The skipper of the enumeration coder *)

(** Whatever the bytes are, [decode_skip] of an enumeration steps over
    [sizeof] of the underlying type. *)
Lemma enum_decode_skip_fixed underlying is_safe b (m : store) :
  (sizeof (int_width underlying) <= size b)%nat ->
  decode_skip (enum underlying) is_safe b m
  = Present (mk_bytes (b_begin b + sizeof (int_width underlying)) (b_end b)).
Proof.
  intros H. cbn [decode_skip skipper_enum].
  unfold skipper_enum_coder.decode_skip, skipper_integer_coder.decode_skip.
  assert ((size b <? sizeof (int_width underlying))%nat = false) as ->
    by (apply Nat.ltb_ge; exact H).
  rewrite andb_false_r. unfold subspan.
  destruct (Z.of_nat (sizeof (int_width underlying)) <=? Z.of_nat (size b)) eqn:E;
    [|apply Z.leb_gt in E; lia].
  rewrite Nat2Z.id. reflexivity.
Qed.

(** C4 at [E2::green] of [enum class E2 { red, green, blue }], whose
    underlying type is [int], in a buffer of ten bytes: [encode] writes one
    byte and [encode_skip] reports one, [decode] consumes one, but
    [decode_skip] steps over four; on the one byte alone, safe [decode_skip]
    returns an absent result. *)
Theorem enum_decode_skip_mismatch :
  let E2 := mk_int_type true W32 in
  let a := [1; 0; 0; 0; 0; 0; 0; 0; 0; 0] in
  encode (enum E2) true 1 (mk_bytes 0 10) (replicate 10 0) = (a, Present (mk_bytes 1 10))
  /\ encode_skip (enum E2) 1 = Present 1
  /\ decode (enum E2) true (mk_bytes 0 10) a = Present (1, mk_bytes 1 10)
  /\ decode_skip (enum E2) true (mk_bytes 0 10) a = Present (mk_bytes 4 10)
  /\ decode_skip (enum E2) false (mk_bytes 0 10) a = Present (mk_bytes 4 10)
  /\ decode_skip (enum E2) true (mk_bytes 0 1) [1] = Absent.
Proof. vm_compute. repeat split; reflexivity. Qed.

(** ** Decoding arrays *)

Lemma decode_loop_ends is_safe w rest iter end_ i acc :
  varint_coder.decode_loop is_safe w rest iter end_ i acc <> Diverges.
Proof.
  revert iter i acc. induction rest as [|x rest IH]; intros iter i acc; [discriminate|].
  cbn [varint_coder.decode_loop]. unfold shl.
  destruct (Z.shiftr x 7 =? 1), (7 * i <? promoted_bits w); cbn [rbind]; try discriminate.
  destruct (is_safe && (S iter =? end_)%nat); [discriminate|apply IH].
Qed.

Lemma decode_loop_advances is_safe w rest iter end_ i acc v it :
  varint_coder.decode_loop is_safe w rest iter end_ i acc = Present (v, it) ->
  (iter < it)%nat.
Proof.
  revert iter i acc. induction rest as [|x rest IH]; intros iter i acc H; [discriminate|].
  cbn [varint_coder.decode_loop] in H. unfold shl in H.
  destruct (Z.shiftr x 7 =? 1), (7 * i <? promoted_bits w);
    cbn [rbind] in H; try discriminate.
  - destruct (is_safe && (S iter =? end_)%nat); [discriminate|]. apply IH in H. lia.
  - injection H as _ <-. lia.
Qed.

Lemma varint_progressing w : progressing_decoder (varint w).
Proof.
  intros b m. cbn [decode varint]. unfold varint_coder.decode.
  destruct (true && (b_begin b =? b_end b)%nat); [exact I|].
  pose proof (decode_loop_ends true w (drop (b_begin b) m) (b_begin b) (b_end b) 0 0) as Hd.
  destruct (varint_coder.decode_loop true w (drop (b_begin b) m) (b_begin b) (b_end b) 0 0)
    as [[v it]| | |] eqn:Hl; cbn [rbind fst snd b_begin]; try exact I; [|congruence].
  apply decode_loop_advances in Hl. exact Hl.
Qed.

Section array_decode_laws.

Context (C : coder) `{!skipper C}.


Lemma array_decode_inv b (m : store) con b' :
  suffix_decoder C -> (b_begin b <= b_end b)%nat ->
  decode (array C) true b m = Present (con, b') ->
  exists L b0,
    varint_coder.decode W64 true b m = Present (L, b0)
    /\ suffix_of b0 b /\ suffix_of b' b0 /\ L <= begin_diff b' b0.
Proof.
  intros Hsuf Hv H. cbn [decode array] in H. unfold array_coder.decode in H.
  destruct (varint_coder.decode W64 true b m) as [[L b0]| | |] eqn:Hp; try discriminate.
  cbn [rbind fst snd] in H.
  pose proof (varint_suffix_decoder W64 b m L b0 Hv Hp) as Hb0.
  apply (safe_decode_loop_inv C) in H; [|exact Hsuf|apply suffix_of_refl; destruct Hb0; lia].
  exists L, b0. tauto.
Qed.

Lemma array_suffix_decoder : suffix_decoder C -> suffix_decoder (array C).
Proof.
  intros Hsuf b m con b' Hv H.
  destruct (array_decode_inv b m con b' Hsuf Hv H) as (L & b0 & _ & H0 & H1 & _).
  apply suffix_of_trans with b0; assumption.
Qed.

(** With an element coder that consumes something for every element, safe
    [decode] of an array in a store that fits the address space ends. *)
Lemma array_decode_ends b (m : store) :
  suffix_decoder C -> progressing_decoder C ->
  view_in b m -> Z.of_nat (length m) < 2 ^ 64 ->
  decode (array C) true b m <> Diverges.
Proof.
  intros Hsuf Hprog [Hv1 Hv2] Hm. cbn [decode array]. unfold array_coder.decode.
  pose proof (varint_progressing W64 b m) as Hp. cbn [decode varint] in Hp.
  destruct (varint_coder.decode W64 true b m) as [[L b0]| | |] eqn:Hd;
    cbn [rbind fst snd]; try discriminate; [|contradiction].
  pose proof (varint_suffix_decoder W64 b m L b0 Hv1 Hd) as [Hb0e Hb0].
  apply (safe_decode_loop_ends C); try assumption.
  - apply suffix_of_refl. lia.
  - lia.
  - unfold begin_diff.
    destruct (Z_lt_le_dec L 0); [lia|]. rewrite Z2Nat.id by lia. lia.
Qed.

End array_decode_laws.



(** The loop is left as soon as the payload is consumed: with a prefix of 2
    and a two-byte element, the byte that follows is not decoded. *)
Example array_decode_stops_at_boundary :
  decode (array (varint W32)) true (mk_bytes 0 4) [2; 128; 1; 7]
  = Present ([128], mk_bytes 3 4).
Proof. vm_compute. reflexivity. Qed.


(** ** Encoding arrays *)

(** C6: for a sequence of values of a lawful element coder and a view with
    room, in a store that fits the address space, [encode] computes [L] as the
    sum of the elements' [encode_skip], writes the varint of [L] and then the
    elements in order, so that it advances by [varint_len L + L] bytes, the
    value [encode_skip] of the array's skipper returns. *)
Theorem array_encode_layout (C : coder) `{!skipper C} domain wire
    `{!lawful_encoder C domain wire} is_safe con b (m : store) :
  Forall domain con ->
  (b_begin b + length (array_wire wire con) <= b_end b <= length m)%nat ->
  Z.of_nat (length m) < 2 ^ 64 ->
  let L := payload_size C con in
  array_coder.skip_sum C con 0 = Present L
  /\ exists m' b',
      encode (array C) is_safe con b m = (m', Present b')
      /\ window m' b (Z.to_nat (varint_len L + L))
         = varint_wire W64 L ++ concat (map wire con)
      /\ begin_diff b' b = varint_len L + L
      /\ encode_skip (array C) con = Present (varint_len L + L).
Proof.
  intros Hdom Hroom Hm L. subst L.
  rewrite (payload_size_spec C domain wire con Hdom).
  pose proof Hroom as Hroom'. unfold array_wire in Hroom'. rewrite length_app in Hroom'.
  set (L := Z.of_nat (length (array_payload wire con))) in *.
  assert (in_range W64 L) as HL by (split; [lia|change (2 ^ bits W64) with (2 ^ 64); lia]).
  pose proof (varint_wire_length W64 L HL) as Hwl.
  assert (Z.of_nat (length (array_wire wire con)) = varint_len L + L) as Hlen
    by (unfold array_wire; rewrite length_app; fold L; lia).
  split.
  - rewrite (skip_sum_spec C domain wire con 0 Hdom) by lia. f_equal.
  - eexists _, _. split; [apply (array_encode_spec C domain wire); [exact Hdom|lia|exact Hroom]|].
    rewrite <- Hlen, Nat2Z.id. split; [|split].
    + rewrite window_written by lia. reflexivity.
    + unfold begin_diff. cbn [b_begin]. lia.
    + apply (array_encode_skip_spec C domain wire); [exact Hdom|lia].
Qed.

Lemma array_encode_layout_witness :
  let L := payload_size (varint W32) [1; 300; 2] in
  array_coder.skip_sum (varint W32) [1; 300; 2] 0 = Present L
  /\ exists m' b',
      encode (array (varint W32)) true [1; 300; 2] (mk_bytes 1 10) (replicate 10 0)
      = (m', Present b')
      /\ window m' (mk_bytes 1 10) (Z.to_nat (varint_len L + L))
         = varint_wire W64 L ++ concat (map (varint_wire W32) [1; 300; 2])
      /\ begin_diff b' (mk_bytes 1 10) = varint_len L + L
      /\ encode_skip (array (varint W32)) [1; 300; 2] = Present (varint_len L + L).
Proof.
  apply (array_encode_layout (varint W32) (in_range W32) (varint_wire W32)
           true [1; 300; 2] (mk_bytes 1 10) (replicate 10 0)).
  - repeat constructor; vm_compute; congruence.
  - vm_compute. lia.
  - vm_compute. reflexivity.
Defined.

(** ** Remainders *)

(** C10: in safe mode, whenever [encode] or [decode] of the varint coder, or
    [decode] of the array coder over an element coder that itself returns
    suffixes, returns a value, the view it returns is a suffix of the input
    view: same end, begin between the input's begin and the end. *)
Theorem safe_remainder_is_suffix (C : coder) `{!skipper C} s :
  suffix_decoder C -> (b_begin s <= b_end s)%nat ->
  (forall w n (m m' : store) s',
      varint_coder.encode w true n s m = (m', Present s') -> suffix_of s' s)
  /\ (forall w (m : store) v s',
      varint_coder.decode w true s m = Present (v, s') -> suffix_of s' s)
  /\ (forall (m : store) con s',
      decode (array C) true s m = Present (con, s') -> suffix_of s' s).
Proof.
  intros Hsuf Hv. split; [|split].
  - intros w n m m' s' H.
    destruct (varint_encode_frame w n s m Hv) as (m1 & r & Heq & _ & Hs).
    rewrite Heq in H. injection H as _ ->. apply Hs. reflexivity.
  - intros w m v s' H. apply (varint_suffix_decoder w s m v s' Hv H).
  - intros m con s' H. apply (array_suffix_decoder C Hsuf s m con s' Hv H).
Qed.

Lemma safe_remainder_is_suffix_witness :
  (forall w n (m m' : store) s',
      varint_coder.encode w true n (mk_bytes 2 7) m = (m', Present s') ->
      suffix_of s' (mk_bytes 2 7))
  /\ (forall w (m : store) v s',
      varint_coder.decode w true (mk_bytes 2 7) m = Present (v, s') ->
      suffix_of s' (mk_bytes 2 7))
  /\ (forall (m : store) con s',
      decode (array (varint W32)) true (mk_bytes 2 7) m = Present (con, s') ->
      suffix_of s' (mk_bytes 2 7)).
Proof.
  apply (safe_remainder_is_suffix (varint W32) (mk_bytes 2 7)).
  - apply varint_suffix_decoder.
  - simpl. lia.
Defined.

(** * Further properties of the coders and skippers *)

(** ** Reading a varint where it lies *)

Lemma varint_decode_at w is_safe n s (m : store) rest :
  in_range w n ->
  drop (b_begin s) m = varint_wire w n ++ rest ->
  (is_safe = true -> (b_begin s + length (varint_wire w n) <= b_end s)%nat) ->
  varint_coder.decode w is_safe s m
  = Present (n, mk_bytes (b_begin s + length (varint_wire w n)) (b_end s)).
Proof.
  intros Hn Hm He. pose proof (varint_wire_nonempty w n) as Hne.
  unfold varint_coder.decode.
  assert (is_safe && (b_begin s =? b_end s)%nat = false) as ->.
  { destruct is_safe; [|reflexivity]. cbn [andb]. apply Nat.eqb_neq. specialize (He eq_refl). lia. }
  rewrite Hm. unfold varint_wire in *. destruct Hn as [Hn0 Hn1].
  rewrite decode_loop_wire.
  - cbn [rbind fst snd]. rewrite Z.lor_0_l. change (7 * 0) with 0.
    rewrite Z.pow_0_r, Z.mul_1_r. reflexivity.
  - apply fuel_of_pos.
  - apply range_fuel. split; assumption.
  - lia.
  - pose proof (bits_pos w). lia.
  - change (7 * 0) with 0. rewrite Z.pow_0_r, Z.mul_1_r. exact Hn1.
  - exact He.
Qed.

Lemma varint_decode_skip_at w is_safe n s (m : store) rest :
  in_range w n ->
  drop (b_begin s) m = varint_wire w n ++ rest ->
  (is_safe = true -> (b_begin s + length (varint_wire w n) <= b_end s)%nat) ->
  skipper_varint_coder.decode_skip w is_safe s m
  = Present (mk_bytes (b_begin s + length (varint_wire w n)) (b_end s)).
Proof.
  intros Hn Hm He. pose proof (varint_wire_nonempty w n) as Hne.
  unfold skipper_varint_coder.decode_skip.
  assert (is_safe && (b_begin s =? b_end s)%nat = false) as ->.
  { destruct is_safe; [|reflexivity]. cbn [andb]. apply Nat.eqb_neq. specialize (He eq_refl). lia. }
  rewrite Hm. unfold varint_wire in *.
  rewrite decode_skip_loop_wire;
    [reflexivity|apply fuel_of_pos|apply range_fuel; exact Hn|exact He].
Qed.

#[export] Instance varint_lawful_decoder w :
  lawful_decoder (varint w) (in_range w) (varint_wire w).
Proof.
  split.
  - intros is_safe v b m rest Hv Hm He. apply (varint_decode_at w is_safe v b m rest); assumption.
  - intros v _. apply varint_wire_nonempty.
Qed.

(** ** Signed values and enumerations: round trips *)

Lemma to_signed_to_unsigned w n :
  - 2 ^ (bits w - 1) <= n < 2 ^ (bits w - 1) -> to_signed w (to_unsigned w n) = n.
Proof.
  intros Hn. unfold to_signed, to_unsigned. pose proof (bits_pos w).
  assert (2 ^ bits w = 2 * 2 ^ (bits w - 1)) as Hp.
  { replace (bits w) with (1 + (bits w - 1)) at 1 by lia. rewrite Z.pow_add_r by lia. reflexivity. }
  assert (0 < 2 ^ (bits w - 1)) by (apply Z.pow_pos_nonneg; lia).
  rewrite Z.mod_mod by lia.
  destruct (Z_lt_le_dec n 0) as [Hneg|Hpos].
  - assert (n mod 2 ^ bits w = n + 2 ^ bits w) as ->.
    { replace n with ((n + 2 ^ bits w) + (-1) * 2 ^ bits w) at 1 by lia.
      rewrite Z.mod_add by lia. apply Z.mod_small. lia. }
    destruct (n + 2 ^ bits w <? 2 ^ (bits w - 1)) eqn:E; [apply Z.ltb_lt in E; lia|lia].
  - rewrite Z.mod_small by lia.
    destruct (n <? 2 ^ (bits w - 1)) eqn:E; [reflexivity|apply Z.ltb_ge in E; lia].
Qed.

Lemma as_unsigned_back t v :
  int_range t v ->
  (if is_signed t then to_signed (int_width t) (as_unsigned t v) else as_unsigned t v) = v.
Proof.
  unfold int_range, as_unsigned. destruct (is_signed t); [|reflexivity].
  apply to_signed_to_unsigned.
Qed.

#[export] Instance enum_lawful_decoder t : lawful_decoder (enum t) (int_range t) (enum_wire t).
Proof.
  split.
  - intros is_safe v b m rest Hv Hm He.
    pose proof (as_unsigned_in_range t v Hv) as Hu. pose proof (as_unsigned_back t v Hv) as Hb.
    cbn [decode enum]. unfold enum_coder.decode, varint_decode, varint_coder_signed.decode,
      enum_wire in *.
    destruct (is_signed t);
      rewrite (varint_decode_at _ is_safe _ b m rest Hu Hm He); cbn [rbind fst snd];
      rewrite Hb; reflexivity.
  - intros v _. apply varint_wire_nonempty.
Qed.

(** X1: a value of a signed type, written by the signed varint coder into a
    view with room and read back by it, in either mode, comes back unchanged,
    with the view [encode] returned. *)
Theorem signed_round_trip w enc_safe dec_safe n s (m : store) :
  - 2 ^ (bits w - 1) <= n < 2 ^ (bits w - 1) ->
  (b_begin s + length (varint_wire w (to_unsigned w n)) <= b_end s <= length m)%nat ->
  exists m' s',
    varint_coder_signed.encode w enc_safe n s m = (m', Present s')
    /\ varint_coder_signed.decode w dec_safe s m' = Present (n, s').
Proof.
  intros Hn Hroom.
  assert (in_range w (to_unsigned w n)) as Hu.
  { unfold in_range, to_unsigned. apply Z.mod_pos_bound. apply Z.pow_pos_nonneg; [lia|].
    pose proof (bits_pos w). lia. }
  unfold varint_coder_signed.encode, varint_coder_signed.decode.
  eexists _, _. split; [apply varint_encode_spec; [exact Hu|lia|intros _; lia]|].
  rewrite (varint_decode_at w dec_safe (to_unsigned w n) s _ _ Hu
             (written_drop m (b_begin s) _ ltac:(lia)) ltac:(intros _; lia)).
  cbn [rbind fst snd]. rewrite to_signed_to_unsigned by exact Hn. reflexivity.
Qed.

Lemma signed_round_trip_witness :
  exists m' s',
    varint_coder_signed.encode W32 true (-300) (mk_bytes 0 6) (replicate 6 0) = (m', Present s')
    /\ varint_coder_signed.decode W32 false (mk_bytes 0 6) m' = Present (-300, s').
Proof.
  apply (signed_round_trip W32 true false (-300) (mk_bytes 0 6) (replicate 6 0)).
  - vm_compute. split; discriminate || reflexivity.
  - vm_compute. lia.
Defined.

(** X2: a value of an enumeration, of a signed or an unsigned underlying
    type, written by [enum_coder] into a view with room and read back by it,
    in either mode, comes back unchanged, with the view [encode] returned. *)
Theorem enum_round_trip t enc_safe dec_safe v s (m : store) :
  int_range t v ->
  (b_begin s + length (enum_wire t v) <= b_end s <= length m)%nat ->
  exists m' s',
    encode (enum t) enc_safe v s m = (m', Present s')
    /\ decode (enum t) dec_safe s m' = Present (v, s').
Proof.
  intros Hv Hroom. eexists _, _.
  split; [apply (encode_wire (C := enum t)); [exact Hv|exact Hroom]|].
  apply (decode_wire (C := enum t) dec_safe v s _ (drop (b_begin s + length (enum_wire t v)) m));
    [exact Hv|apply written_drop; lia|intros _; lia].
Qed.

Lemma enum_round_trip_witness :
  exists m' s',
    encode (enum (mk_int_type true W32)) false (-2) (mk_bytes 1 8) (replicate 8 0)
    = (m', Present s')
    /\ decode (enum (mk_int_type true W32)) true (mk_bytes 1 8) m' = Present (-2, s').
Proof.
  apply (enum_round_trip (mk_int_type true W32) false true (-2) (mk_bytes 1 8) (replicate 8 0)).
  - vm_compute. split; discriminate || reflexivity.
  - vm_compute. lia.
Defined.

(** ** The varint skipper against the varint coder *)

(** X3: after [encode] of the varint coder into a view with room,
    [decode_skip] of the varint skipper, in either mode, returns the view
    [encode] returned, and the bytes it stepped over are as many as
    [encode_skip] reports. *)
Theorem varint_skip_after_encode w enc_safe skip_safe n s (m : store) :
  in_range w n ->
  (b_begin s + length (varint_wire w n) <= b_end s <= length m)%nat ->
  exists m' s',
    varint_coder.encode w enc_safe n s m = (m', Present s')
    /\ decode_skip (varint w) skip_safe s m' = Present s'
    /\ encode_skip (varint w) n = Present (begin_diff s' s).
Proof.
  intros Hn Hroom. eexists _, _.
  split; [apply varint_encode_spec; [exact Hn|lia|intros _; lia]|]. split.
  - apply varint_skip_law; assumption.
  - cbn [encode_skip skipper_varint]. rewrite varint_encode_skip_spec by exact Hn.
    f_equal. unfold begin_diff. cbn [b_begin]. lia.
Qed.

Lemma varint_skip_after_encode_witness :
  exists m' s',
    varint_coder.encode W64 false 300 (mk_bytes 2 5) (replicate 5 9) = (m', Present s')
    /\ decode_skip (varint W64) true (mk_bytes 2 5) m' = Present s'
    /\ encode_skip (varint W64) 300 = Present (begin_diff s' (mk_bytes 2 5)).
Proof.
  apply (varint_skip_after_encode W64 false true 300 (mk_bytes 2 5) (replicate 5 9)).
  - vm_compute. split; discriminate || reflexivity.
  - vm_compute. lia.
Defined.

Lemma skip_loop_follows_decode is_safe w rest iter end_ i acc :
  match varint_coder.decode_loop is_safe w rest iter end_ i acc with
  | Present r =>
      skipper_varint_coder.decode_skip_loop is_safe rest iter end_ = Present r.2
  | Absent => skipper_varint_coder.decode_skip_loop is_safe rest iter end_ = Absent
  | _ => True
  end.
Proof.
  revert iter i acc. induction rest as [|x rest IH]; intros iter i acc; [exact I|].
  cbn [varint_coder.decode_loop skipper_varint_coder.decode_skip_loop]. unfold shl.
  destruct (Z.shiftr x 7 =? 1), (7 * i <? promoted_bits w); cbn [rbind]; try exact I.
  - destruct (is_safe && (S iter =? end_)%nat); [reflexivity|apply IH].
  - reflexivity.
Qed.

(** X4: on any input, in either mode, when [decode] of the varint coder
    returns a value, [decode_skip] of the varint skipper returns the same
    remaining view, and when [decode] returns an absent result so does
    [decode_skip]. *)
Theorem varint_skip_follows_decode w is_safe s (m : store) :
  match varint_coder.decode w is_safe s m with
  | Present r => decode_skip (varint w) is_safe s m = Present r.2
  | Absent => decode_skip (varint w) is_safe s m = Absent
  | _ => True
  end.
Proof.
  cbn [decode_skip skipper_varint].
  unfold varint_coder.decode, skipper_varint_coder.decode_skip.
  destruct (is_safe && (b_begin s =? b_end s)%nat); [reflexivity|].
  pose proof (skip_loop_follows_decode is_safe w (drop (b_begin s) m)
                (b_begin s) (b_end s) 0 0) as H.
  destruct (varint_coder.decode_loop is_safe w (drop (b_begin s) m) (b_begin s) (b_end s) 0 0)
    as [[v it]| | |]; cbn [rbind fst snd] in *; try exact I; rewrite H; reflexivity.
Qed.

(** ** What the varint decoder returns *)

Lemma lor_in_range k a b :
  0 <= k -> 0 <= a < 2 ^ k -> 0 <= b < 2 ^ k -> 0 <= Z.lor a b < 2 ^ k.
Proof.
  intros Hk Ha Hb. split; [apply Z.lor_nonneg; lia|].
  apply Z.bounded_iff_bits_nonneg; [lia|apply Z.lor_nonneg; lia|].
  intros l Hl. rewrite Z.lor_spec.
  rewrite (proj1 (Z.bounded_iff_bits_nonneg k a Hk ltac:(lia)) ltac:(lia) l Hl).
  rewrite (proj1 (Z.bounded_iff_bits_nonneg k b Hk ltac:(lia)) ltac:(lia) l Hl).
  reflexivity.
Qed.

Lemma shl_in_range w x k v : shl w x k = Present v -> in_range w v.
Proof.
  unfold shl. destruct (k <? promoted_bits w); [|discriminate]. intros [= <-].
  apply Z.mod_pos_bound. apply Z.pow_pos_nonneg; [lia|]. pose proof (bits_pos w). lia.
Qed.

Lemma decode_loop_in_range is_safe w rest iter end_ i acc v it :
  in_range w acc ->
  varint_coder.decode_loop is_safe w rest iter end_ i acc = Present (v, it) ->
  in_range w v.
Proof.
  revert iter i acc. induction rest as [|x rest IH]; intros iter i acc Hacc H; [discriminate|].
  pose proof (bits_pos w) as Hb.
  cbn [varint_coder.decode_loop] in H. destruct (Z.shiftr x 7 =? 1).
  - destruct (shl w (Z.land x 127) (7 * i)) as [g| | |] eqn:Hg; try discriminate.
    cbn [rbind] in H. destruct (is_safe && (S iter =? end_)%nat); [discriminate|].
    apply IH in H; [exact H|]. apply shl_in_range in Hg.
    apply lor_in_range; [lia|exact Hacc|exact Hg].
  - destruct (shl w x (7 * i)) as [g| | |] eqn:Hg; try discriminate.
    cbn [rbind] in H. injection H as <- _. apply shl_in_range in Hg.
    apply lor_in_range; [lia|exact Hacc|exact Hg].
Qed.

(** X5: whatever bytes it reads, in either mode, a value returned by [decode]
    of the varint coder is a value of the type: bits of the groups beyond the
    width are dropped, never kept. *)
Theorem varint_decode_in_range w is_safe s (m : store) v s' :
  varint_coder.decode w is_safe s m = Present (v, s') -> in_range w v.
Proof.
  unfold varint_coder.decode. destruct (is_safe && (b_begin s =? b_end s)%nat); [discriminate|].
  destruct (varint_coder.decode_loop is_safe w (drop (b_begin s) m) (b_begin s) (b_end s) 0 0)
    as [[v0 it]| | |] eqn:Hl; try discriminate.
  cbn [rbind fst snd]. intros [= <- _].
  apply (decode_loop_in_range is_safe w _ _ _ 0 0 v0 it) in Hl; [exact Hl|].
  split; [lia|]. apply Z.pow_pos_nonneg; [lia|]. pose proof (bits_pos w). lia.
Qed.

Lemma varint_decode_in_range_witness : in_range W8 255.
Proof.
  apply (varint_decode_in_range W8 true (mk_bytes 0 2) [255; 127] 255 (mk_bytes 2 2)).
  vm_compute. reflexivity.
Defined.

(** ** Truncated input and short output *)

Lemma decode_loop_truncated fuel n w rest iter end_ i acc :
  (0 < fuel)%nat -> 0 <= n < 2 ^ (7 * Z.of_nat fuel) ->
  0 <= i -> 7 * i < bits w -> n * 2 ^ (7 * i) < 2 ^ bits w ->
  (iter < end_ < iter + length (leb128 fuel n))%nat ->
  varint_coder.decode_loop true w (leb128 fuel n ++ rest) iter end_ i acc = Absent.
Proof.
  revert n iter i acc.
  induction fuel as [|fuel IH]; intros n iter i acc Hf Hn Hi Hiw Hfit He; [lia|].
  cbn [leb128] in *. destruct (Z.shiftr n 7 =? 0) eqn:E; [cbn [length] in He; lia|].
  apply Z.eqb_neq in E. pose proof (shiftr7_nonzero n ltac:(lia) E) as Hbig.
  pose proof (shiftr7_bound n fuel Hn) as Hn'.
  assert (0 < fuel)%nat as Hf'.
  { destruct fuel; [|lia]. simpl in Hn'. change (2 ^ 0) with 1 in Hn'. lia. }
  assert (0 < 2 ^ (7 * i)) as Hpow by (apply Z.pow_pos_nonneg; lia).
  assert (Z.shiftr n 7 * 128 <= n) as Hdiv.
  { rewrite Z.shiftr_div_pow2 by lia. change (2 ^ 7) with 128.
    pose proof (Z.mul_div_le n 128 ltac:(lia)). lia. }
  assert (2 ^ (7 * (i + 1)) = 128 * 2 ^ (7 * i)) as Hstep.
  { replace (7 * (i + 1)) with (7 + 7 * i) by lia. rewrite Z.pow_add_r by lia. reflexivity. }
  assert (Z.shiftr n 7 * 2 ^ (7 * (i + 1)) <= n * 2 ^ (7 * i)) as Hle by (rewrite Hstep; nia).
  assert (7 * (i + 1) < bits w) as Hiw'.
  { apply (Z.pow_lt_mono_r_iff 2); [lia|pose proof (bits_pos w); lia|]. rewrite Hstep. nia. }
  pose proof (Z.mod_pos_bound n 128 ltac:(lia)) as Hm128.
  pose proof (Z.mod_pos_bound n 256 ltac:(lia)) as Hm256.
  assert (n mod 128 <= n) by (apply Z.mod_le; lia).
  cbn [app varint_coder.decode_loop length andb] in *.
  rewrite cont_byte_msb by lia. change (1 =? 1) with true. cbv iota.
  rewrite cont_byte_low. rewrite shl_fits by (try lia; nia). cbn [rbind].
  destruct (S iter =? end_)%nat eqn:Ee; [reflexivity|]. apply Nat.eqb_neq in Ee.
  apply IH; try assumption; lia.
Qed.

Lemma decode_skip_loop_truncated fuel n rest iter end_ :
  (0 < fuel)%nat -> 0 <= n < 2 ^ (7 * Z.of_nat fuel) ->
  (iter < end_ < iter + length (leb128 fuel n))%nat ->
  skipper_varint_coder.decode_skip_loop true (leb128 fuel n ++ rest) iter end_ = Absent.
Proof.
  revert n iter. induction fuel as [|fuel IH]; intros n iter Hf Hn He; [lia|].
  cbn [leb128] in *. destruct (Z.shiftr n 7 =? 0) eqn:E; [cbn [length] in He; lia|].
  apply Z.eqb_neq in E. pose proof (shiftr7_bound n fuel Hn) as Hn'.
  assert (0 < fuel)%nat as Hf'.
  { destruct fuel; [|lia]. simpl in Hn'. change (2 ^ 0) with 1 in Hn'. lia. }
  pose proof (Z.mod_pos_bound n 256 ltac:(lia)) as Hm256.
  cbn [app skipper_varint_coder.decode_skip_loop length andb] in *.
  rewrite cont_byte_msb by lia. change (1 =? 1) with true. cbv iota.
  destruct (S iter =? end_)%nat eqn:Ee; [reflexivity|]. apply Nat.eqb_neq in Ee.
  apply IH; try assumption; lia.
Qed.

Lemma varint_decode_cut w n s (m : store) rest :
  in_range w n ->
  drop (b_begin s) m = varint_wire w n ++ rest ->
  (b_begin s <= b_end s < b_begin s + length (varint_wire w n))%nat ->
  varint_coder.decode w true s m = Absent.
Proof.
  intros Hn Hm Hv. unfold varint_coder.decode. cbn [andb].
  destruct (b_begin s =? b_end s)%nat eqn:E; [reflexivity|]. apply Nat.eqb_neq in E.
  rewrite Hm. unfold varint_wire in *. destruct Hn as [Hn0 Hn1].
  pose proof (bits_pos w) as Hb. pose proof (fuel_of_pos w) as Hf.
  pose proof (range_fuel w n (conj Hn0 Hn1)) as Hr.
  assert (n * 2 ^ (7 * 0) < 2 ^ bits w) as Hfit
    by (change (7 * 0) with 0; rewrite Z.pow_0_r, Z.mul_1_r; exact Hn1).
  rewrite (decode_loop_truncated _ n w rest _ _ 0 0 Hf Hr); [reflexivity|lia|lia|exact Hfit|lia].
Qed.

(** X6: when the view ends before the last byte of a varint, safe [decode]
    of the varint coder and safe [decode_skip] of the varint skipper both
    return an absent result. *)
Theorem varint_decode_truncated w n s (m : store) rest :
  in_range w n ->
  drop (b_begin s) m = varint_wire w n ++ rest ->
  (b_begin s <= b_end s < b_begin s + length (varint_wire w n))%nat ->
  varint_coder.decode w true s m = Absent
  /\ decode_skip (varint w) true s m = Absent.
Proof.
  intros Hn Hm Hv. split; [apply (varint_decode_cut w n s m rest); assumption|].
  cbn [decode_skip skipper_varint]. unfold skipper_varint_coder.decode_skip. cbn [andb].
  destruct (b_begin s =? b_end s)%nat eqn:E; [reflexivity|]. apply Nat.eqb_neq in E.
  rewrite Hm. unfold varint_wire in *.
  rewrite (decode_skip_loop_truncated _ n rest _ _ (fuel_of_pos w) (range_fuel w n Hn));
    [reflexivity|lia].
Qed.

Lemma varint_decode_truncated_witness :
  varint_coder.decode W32 true (mk_bytes 0 1) [150; 1] = Absent
  /\ decode_skip (varint W32) true (mk_bytes 0 1) [150; 1] = Absent.
Proof.
  apply (varint_decode_truncated W32 150 (mk_bytes 0 1) [150; 1] []).
  - vm_compute. split; discriminate || reflexivity.
  - vm_compute. reflexivity.
  - vm_compute. lia.
Defined.

Lemma varint_encode_absent w n s (m : store) :
  in_range w n -> view_in s m -> (size s < length (varint_wire w n))%nat ->
  exists m',
    varint_coder.encode w true n s m = (m', Absent)
    /\ agree_outside m m' (b_begin s) (b_end s).
Proof.
  intros Hn [Hv1 Hv2] Hshort.
  destruct (varint_encode_frame w n s m Hv1) as (m' & r & Heq & Hag & _).
  exists m'. split; [|exact Hag]. rewrite Heq. f_equal.
  unfold varint_coder.encode in Heq. unfold bind at 1 in Heq.
  destruct (safe_encode_loop_short (varint_coder.fuel_of w) n (b_begin s) (b_end s) m)
    as (m1 & Hl).
  - apply fuel_of_pos.
  - apply range_fuel. exact Hn.
  - lia.
  - unfold varint_wire in Hshort. rewrite leb128_length in Hshort. unfold size in Hshort. lia.
  - rewrite Hl in Heq. congruence.
Qed.

Lemma varint_strict w : strict_encoder (varint w) (in_range w) (varint_wire w).
Proof.
  intros v b m Hv Hin Hs. destruct (varint_encode_absent w v b m Hv Hin Hs) as (m' & H & _).
  exists m'. exact H.
Qed.

Lemma varint_framed w : framed_encoder (varint w).
Proof. intros v b m Hv. apply varint_encode_frame. exact Hv. Qed.

Lemma enum_encode_is_varint t is_safe v s :
  encode (enum t) is_safe v s = varint_coder.encode (int_width t) is_safe (as_unsigned t v) s.
Proof.
  cbn [encode enum]. unfold enum_coder.encode, varint_encode, varint_coder_signed.encode,
    as_unsigned. destruct (is_signed t); reflexivity.
Qed.

Lemma enum_strict t : strict_encoder (enum t) (int_range t) (enum_wire t).
Proof.
  intros v b m Hv Hin Hs. rewrite enum_encode_is_varint.
  apply (varint_strict (int_width t)); [apply as_unsigned_in_range; exact Hv|exact Hin|exact Hs].
Qed.

Lemma enum_framed t : framed_encoder (enum t).
Proof. intros v b m Hv. rewrite enum_encode_is_varint. apply varint_encode_frame. exact Hv. Qed.

(** X7: with a view shorter than the encoding of an enumeration value, safe
    [encode] of [enum_coder] returns an absent result and leaves the store
    unchanged outside the view, and safe [decode] of the truncated encoding
    returns an absent result. *)
Theorem enum_insufficient_buffer t v s (m : store) :
  int_range t v -> view_in s m -> (size s < length (enum_wire t v))%nat ->
  (exists m', encode (enum t) true v s m = (m', Absent)
              /\ agree_outside m m' (b_begin s) (b_end s))
  /\ (forall rest, drop (b_begin s) m = enum_wire t v ++ rest ->
        decode (enum t) true s m = Absent).
Proof.
  intros Hv Hin Hs. pose proof (as_unsigned_in_range t v Hv) as Hu. split.
  - rewrite enum_encode_is_varint. apply varint_encode_absent; assumption.
  - intros rest Hm. destruct Hin as [Hv1 Hv2]. unfold size in Hs.
    assert (varint_coder.decode (int_width t) true s m = Absent) as Hd
      by (apply (varint_decode_cut _ (as_unsigned t v) s m rest Hu Hm);
          unfold enum_wire in Hs; lia).
    cbn [decode enum]. unfold enum_coder.decode, varint_decode, varint_coder_signed.decode.
    destruct (is_signed t); rewrite Hd; reflexivity.
Qed.

Lemma enum_insufficient_buffer_witness :
  (exists m', encode (enum (mk_int_type false W32)) true 128 (mk_bytes 0 1) [128; 1]
              = (m', Absent)
              /\ agree_outside [128; 1] m' 0 1)
  /\ (forall rest, drop 0 [128; 1] = enum_wire (mk_int_type false W32) 128 ++ rest ->
        decode (enum (mk_int_type false W32)) true (mk_bytes 0 1) [128; 1] = Absent).
Proof.
  apply (enum_insufficient_buffer (mk_int_type false W32) 128 (mk_bytes 0 1) [128; 1]).
  - vm_compute. split; discriminate || reflexivity.
  - unfold view_in. simpl. lia.
  - vm_compute. lia.
Defined.

(** ** The fixed-width skippers *)

Lemma subspan_fits b k :
  (k <= size b)%nat -> subspan b (Z.of_nat k) = Present (mk_bytes (b_begin b + k) (b_end b)).
Proof.
  intros H. unfold subspan.
  destruct (Z.of_nat k <=? Z.of_nat (size b)) eqn:E; [|apply Z.leb_gt in E; lia].
  rewrite Nat2Z.id. reflexivity.
Qed.

(** X8: the skippers of the integer, float and bool coders step over
    [sizeof] bytes, the number their [encode_skip] reports, in either mode
    whenever the view holds that many; on a shorter view safe [decode_skip]
    returns an absent result and unsafe [decode_skip] has no defined result. *)
Theorem fixed_width_skippers is_safe b (m : store) :
  (forall w v,
      skipper_integer_coder.encode_skip w v = Present (Z.of_nat (sizeof w))
      /\ skipper_integer_coder.decode_skip w is_safe b m
         = if (sizeof w <=? size b)%nat
           then Present (mk_bytes (b_begin b + sizeof w) (b_end b))
           else if is_safe then Absent else Undefined)
  /\ (forall t,
      skipper_float_coder.encode_skip t = Present (Z.of_nat (sizeof_float t))
      /\ skipper_float_coder.decode_skip t is_safe b m
         = if (sizeof_float t <=? size b)%nat
           then Present (mk_bytes (b_begin b + sizeof_float t) (b_end b))
           else if is_safe then Absent else Undefined)
  /\ (forall v,
      skipper_bool_coder.encode_skip v = Present 1
      /\ skipper_bool_coder.decode_skip is_safe b m
         = if (1 <=? size b)%nat
           then Present (mk_bytes (b_begin b + 1) (b_end b))
           else if is_safe then Absent else Undefined).
Proof.
  assert (forall k : nat,
    (if is_safe && (size b <? k)%nat then Absent else subspan b (Z.of_nat k))
    = if (k <=? size b)%nat then Present (mk_bytes (b_begin b + k) (b_end b))
      else if is_safe then Absent else Undefined) as Hk.
  { intros k. destruct (k <=? size b)%nat eqn:E.
    - apply Nat.leb_le in E. assert ((size b <? k)%nat = false) as -> by (apply Nat.ltb_ge; lia).
      rewrite andb_false_r. apply subspan_fits. exact E.
    - apply Nat.leb_gt in E. assert ((size b <? k)%nat = true) as -> by (apply Nat.ltb_lt; lia).
      destruct is_safe; [reflexivity|]. cbn [andb]. unfold subspan.
      destruct (Z.of_nat k <=? Z.of_nat (size b)) eqn:E'; [apply Z.leb_le in E'; lia|reflexivity]. }
  split; [|split].
  - intros w v. split; [reflexivity|]. apply Hk.
  - intros t. split; [reflexivity|]. apply Hk.
  - intros v. split; [reflexivity|]. apply (Hk 1%nat).
Qed.

(** ** Arrays: reading back what was written *)

Lemma agree_outside_written (m : store) p l :
  (p + length l <= length m)%nat -> agree_outside m (written m p l) p (p + length l).
Proof.
  intros H. split; [apply written_length; exact H|]. intros j [Hj|Hj]; unfold written.
  - rewrite lookup_app_l by (rewrite length_take; lia). apply lookup_take_lt. exact Hj.
  - rewrite app_assoc. rewrite lookup_app_r by (rewrite length_app, length_take; lia).
    rewrite lookup_drop, length_app, length_take. f_equal. lia.
Qed.

Lemma prefix_nonneg is_safe b (m : store) L b0 :
  varint_coder.decode W64 is_safe b m = Present (L, b0) -> 0 <= L < 2 ^ 64.
Proof.
  unfold varint_coder.decode. destruct (is_safe && (b_begin b =? b_end b)%nat); [discriminate|].
  destruct (varint_coder.decode_loop is_safe W64 (drop (b_begin b) m) (b_begin b) (b_end b) 0 0)
    as [[v0 it]| | |] eqn:Hl; try discriminate.
  cbn [rbind fst snd]. intros [= <- _].
  apply (decode_loop_in_range is_safe W64 _ _ _ 0 0 v0 it) in Hl; [exact Hl|].
  split; [lia|reflexivity].
Qed.

Section array_round_trip.

Context (C : coder) `{!skipper C}.
Context (domain : value_type C -> Prop) (wire : value_type C -> list byte).
Context `{!lawful_encoder C domain wire} `{!lawful_decoder C domain wire}.

(** The loop of [decode] over a payload that holds the elements of [con]. *)
Lemma decode_loop_payload is_safe con :
  Forall domain con ->
  forall fuel L origin_b b acc (m : store) rest,
    drop (b_begin b) m = array_payload wire con ++ rest ->
    begin_diff b origin_b + Z.of_nat (length (array_payload wire con)) = L ->
    0 <= begin_diff b origin_b -> L < 2 ^ 64 ->
    (length (array_payload wire con) <= fuel)%nat ->
    (is_safe = true -> (b_begin b + length (array_payload wire con) <= b_end b)%nat) ->
    array_coder.decode_loop C is_safe fuel L origin_b b acc m
    = Present (acc ++ con,
               mk_bytes (b_begin b + length (array_payload wire con)) (b_end b)).
Proof.
  induction 1 as [|v con Hv Hcon IH]; intros fuel L origin_b b acc m rest Hm HL H0 H64 Hf He;
    rewrite decode_loop_unfold; unfold to_unsigned; change (2 ^ bits W64) with (2 ^ 64).
  - cbn [array_payload map concat length] in *. rewrite Z.mod_small by lia.
    assert ((begin_diff b origin_b <? L) = false) as -> by (apply Z.ltb_ge; lia).
    rewrite app_nil_r, Nat.add_0_r. destruct b; reflexivity.
  - cbn [array_payload map concat] in *. fold (array_payload wire con) in *.
    rewrite length_app in *. pose proof (wire_nonempty v Hv) as Hne.
    rewrite Z.mod_small by lia.
    assert ((begin_diff b origin_b <? L) = true) as -> by (apply Z.ltb_lt; lia).
    destruct fuel as [|fuel]; [lia|].
    rewrite <- app_assoc in Hm.
    rewrite (decode_wire is_safe v b m _ Hv Hm) by (intros Hs; specialize (He Hs); lia).
    cbn [rbind fst snd].
    rewrite (IH fuel L origin_b _ _ m rest); cbn [b_begin b_end].
    + f_equal. f_equal; [rewrite <- app_assoc; reflexivity|f_equal; lia].
    + rewrite <- drop_drop, Hm. apply drop_app_length.
    + unfold begin_diff in *. cbn [b_begin]. lia.
    + unfold begin_diff in *. cbn [b_begin]. lia.
    + exact H64.
    + lia.
    + intros Hs. specialize (He Hs). lia.
Qed.

Lemma array_decode_at is_safe con b (m : store) rest :
  array_domain domain wire con ->
  drop (b_begin b) m = array_wire wire con ++ rest ->
  (is_safe = true -> (b_begin b + length (array_wire wire con) <= b_end b)%nat) ->
  array_coder.decode C is_safe b m
  = Present (con, mk_bytes (b_begin b + length (array_wire wire con)) (b_end b)).
Proof.
  intros [Hdom Hfit] Hm He. unfold array_wire in *. rewrite length_app in *.
  set (L := Z.of_nat (length (array_payload wire con))) in *.
  assert (in_range W64 L) as HL by (split; [lia|change (2 ^ bits W64) with (2 ^ 64); lia]).
  rewrite <- app_assoc in Hm. unfold array_coder.decode.
  rewrite (varint_decode_at W64 is_safe L b m _ HL Hm) by (intros Hs; specialize (He Hs); lia).
  cbn [rbind fst snd].
  rewrite (decode_loop_payload is_safe con Hdom _ L _ _ [] m rest); cbn [b_begin b_end].
  - f_equal. f_equal. f_equal. lia.
  - rewrite <- drop_drop, Hm. apply drop_app_length.
  - unfold begin_diff. fold L. lia.
  - unfold begin_diff. lia.
  - lia.
  - subst L. rewrite Nat2Z.id. lia.
  - intros Hs. specialize (He Hs). lia.
Qed.

End array_round_trip.

#[export] Instance array_lawful_decoder (C : coder) `{!skipper C} domain wire
    `{!lawful_encoder C domain wire} `{!lawful_decoder C domain wire} :
  lawful_decoder (array C) (array_domain domain wire) (array_wire wire).
Proof.
  split.
  - intros is_safe con b m rest Hd Hm He.
    apply (array_decode_at C domain wire is_safe con b m rest); assumption.
  - intros con _. unfold array_wire. rewrite length_app.
    pose proof (varint_wire_nonempty W64 (Z.of_nat (length (array_payload wire con)))). lia.
Qed.

(** X9: for an element coder that writes and reads back its wire form (the
    varint and enumeration coders, and arrays of such), a sequence written by
    [array_coder] into a view with room and read back by it, in either mode,
    comes back unchanged, with the view [encode] returned. *)
Theorem array_round_trip (C : coder) `{!skipper C} domain wire
    `{!lawful_encoder C domain wire} `{!lawful_decoder C domain wire}
    enc_safe dec_safe con b (m : store) :
  array_domain domain wire con ->
  (b_begin b + length (array_wire wire con) <= b_end b <= length m)%nat ->
  exists m' b',
    encode (array C) enc_safe con b m = (m', Present b')
    /\ decode (array C) dec_safe b m' = Present (con, b').
Proof.
  intros Hd Hroom. pose proof Hd as [Hdom Hfit]. eexists _, _.
  split; [apply (array_encode_spec C domain wire); assumption|].
  apply (array_decode_at C domain wire dec_safe con b _
           (drop (b_begin b + length (array_wire wire con)) m));
    [exact Hd|apply written_drop; lia|intros _; lia].
Qed.

Lemma array_round_trip_witness :
  exists m' b',
    encode (array (array (varint W32))) true [[1; 300]; []; [7]] (mk_bytes 0 12)
      (replicate 12 0)
    = (m', Present b')
    /\ decode (array (array (varint W32))) false (mk_bytes 0 12) m'
       = Present ([[1; 300]; []; [7]], b').
Proof.
  apply (array_round_trip (array (varint W32))
           (array_domain (in_range W32) (varint_wire W32))
           (array_wire (varint_wire W32))
           true false [[1; 300]; []; [7]] (mk_bytes 0 12) (replicate 12 0)).
  - split; [|vm_compute; reflexivity].
    repeat constructor; vm_compute; (congruence || reflexivity).
  - vm_compute. lia.
Defined.

(** ** Arrays: skipping *)

(** X10: after [encode] of [array_coder], over an element coder that keeps
    the encoding law, into a view with room, [decode_skip] of the array
    skipper, in either mode, returns the view [encode] returned. *)
Theorem array_skip_after_encode (C : coder) `{!skipper C} domain wire
    `{!lawful_encoder C domain wire} enc_safe skip_safe con b (m : store) :
  array_domain domain wire con ->
  (b_begin b + length (array_wire wire con) <= b_end b <= length m)%nat ->
  exists m' b',
    encode (array C) enc_safe con b m = (m', Present b')
    /\ decode_skip (array C) skip_safe b m' = Present b'.
Proof.
  intros [Hdom Hfit] Hroom. eexists _, _.
  split; [apply (array_encode_spec C domain wire); assumption|].
  cbn [decode_skip skipper_array]. unfold skipper_array_coder.decode_skip.
  unfold array_wire in *. rewrite length_app in *.
  set (L := Z.of_nat (length (array_payload wire con))) in *.
  assert (in_range W64 L) as HL by (split; [lia|change (2 ^ bits W64) with (2 ^ 64); lia]).
  rewrite (varint_decode_at W64 skip_safe L b _
             (array_payload wire con
              ++ drop (b_begin b + length (varint_wire W64 L ++ array_payload wire con)) m)
             HL);
    [|rewrite written_drop by lia; rewrite <- app_assoc; reflexivity|intros _; lia].
  cbn [rbind fst snd]. unfold size. cbn [b_begin b_end].
  assert ((Z.of_nat (b_end b - (b_begin b + length (varint_wire W64 L))) <? L) = false) as ->
    by (apply Z.ltb_ge; lia).
  rewrite andb_false_r. subst L. rewrite subspan_fits by (unfold size; cbn [b_begin b_end]; lia).
  cbn [b_begin b_end]. do 2 f_equal. lia.
Qed.

Lemma array_skip_after_encode_witness :
  exists m' b',
    encode (array (varint W32)) false [1; 300; 2] (mk_bytes 1 10) (replicate 10 0)
    = (m', Present b')
    /\ decode_skip (array (varint W32)) true (mk_bytes 1 10) m' = Present b'.
Proof.
  apply (array_skip_after_encode (varint W32) (in_range W32) (varint_wire W32)
           false true [1; 300; 2] (mk_bytes 1 10) (replicate 10 0)).
  - split; [|vm_compute; reflexivity]. repeat constructor; vm_compute; congruence.
  - vm_compute. lia.
Defined.

(** X11: on any input, safe [decode_skip] of the array skipper returns a
    view only by stepping over the length prefix and then exactly the [L]
    bytes the prefix claims, all inside the input view; when the prefix
    claims more bytes than remain it returns an absent result, and then safe
    [decode] of the array returns no value either. *)
Theorem array_skip_exact (C : coder) `{!skipper C} b (m : store) L b0 :
  suffix_decoder C -> (b_begin b <= b_end b)%nat ->
  varint_coder.decode W64 true b m = Present (L, b0) ->
  (forall b', decode_skip (array C) true b m = Present b' ->
     begin_diff b' b0 = L /\ suffix_of b' b0 /\ suffix_of b0 b)
  /\ (Z.of_nat (size b0) < L ->
      decode_skip (array C) true b m = Absent
      /\ forall con b', decode (array C) true b m <> Present (con, b')).
Proof.
  intros Hsuf Hv Hp. pose proof (prefix_nonneg true b m L b0 Hp) as HL.
  pose proof (varint_suffix_decoder W64 b m L b0 Hv Hp) as Hb0.
  cbn [decode_skip skipper_array]. unfold skipper_array_coder.decode_skip.
  rewrite Hp. cbn [rbind fst snd andb]. split.
  - intros b'. destruct (Z.of_nat (size b0) <? L) eqn:E; [discriminate|].
    apply Z.ltb_ge in E. unfold subspan.
    destruct (L <=? Z.of_nat (size b0)); [|discriminate]. intros [= <-].
    unfold begin_diff, suffix_of, size in *. cbn [b_begin b_end].
    destruct Hb0 as [He Hb0]. repeat split; lia.
  - intros Hover. split.
    + assert ((Z.of_nat (size b0) <? L) = true) as -> by (apply Z.ltb_lt; exact Hover).
      reflexivity.
    + intros con b' H.
      destruct (array_decode_inv C b m con b' Hsuf Hv H) as (L' & b0' & Hp' & _ & Hs & Hlen).
      rewrite Hp in Hp'. injection Hp' as <- <-.
      destruct Hs as [He Hs]. unfold begin_diff, size in *. lia.
Qed.

Lemma array_skip_exact_witness :
  (forall b', decode_skip (array (varint W32)) true (mk_bytes 0 3) [5; 128; 1] = Present b' ->
     begin_diff b' (mk_bytes 1 3) = 5 /\ suffix_of b' (mk_bytes 1 3)
     /\ suffix_of (mk_bytes 1 3) (mk_bytes 0 3))
  /\ (Z.of_nat (size (mk_bytes 1 3)) < 5 ->
      decode_skip (array (varint W32)) true (mk_bytes 0 3) [5; 128; 1] = Absent
      /\ forall con b', decode (array (varint W32)) true (mk_bytes 0 3) [5; 128; 1]
                        <> Present (con, b')).
Proof.
  apply (array_skip_exact (varint W32) (mk_bytes 0 3) [5; 128; 1] 5 (mk_bytes 1 3)).
  - apply varint_suffix_decoder.
  - simpl. lia.
  - vm_compute. reflexivity.
Defined.

(** X12: on any input, whenever safe [decode] of an array returns a value,
    safe [decode_skip] of the array skipper returns a view too, and the view
    [decode] returned is a suffix of it: [decode] never stops short of where
    [decode_skip] stops. *)
Theorem array_decode_reaches_skip (C : coder) `{!skipper C} b (m : store) con b' :
  suffix_decoder C -> (b_begin b <= b_end b)%nat ->
  decode (array C) true b m = Present (con, b') ->
  exists b'', decode_skip (array C) true b m = Present b'' /\ suffix_of b' b''.
Proof.
  intros Hsuf Hv H.
  destruct (array_decode_inv C b m con b' Hsuf Hv H) as (L & b0 & Hp & Hb0 & Hs & Hlen).
  pose proof (prefix_nonneg true b m L b0 Hp) as HL.
  cbn [decode_skip skipper_array]. unfold skipper_array_coder.decode_skip.
  rewrite Hp. cbn [rbind fst snd andb].
  destruct Hs as [He Hs]. unfold begin_diff in Hlen.
  assert ((Z.of_nat (size b0) <? L) = false) as -> by (apply Z.ltb_ge; unfold size; lia).
  unfold subspan.
  assert ((L <=? Z.of_nat (size b0)) = true) as -> by (apply Z.leb_le; unfold size; lia).
  eexists. split; [reflexivity|]. split; cbn [b_begin b_end]; [exact He|lia].
Qed.

Lemma array_decode_reaches_skip_witness :
  exists b'', decode_skip (array (varint W32)) true (mk_bytes 0 3) [1; 128; 1] = Present b''
              /\ suffix_of (mk_bytes 3 3) b''.
Proof.
  apply (array_decode_reaches_skip (varint W32) (mk_bytes 0 3) [1; 128; 1] [128]).
  - apply varint_suffix_decoder.
  - simpl. lia.
  - vm_compute. reflexivity.
Defined.

(** ** Arrays: safe encoding stays inside the view *)

Lemma encode_elements_frame (C : coder) `{!skipper C} :
  framed_encoder C ->
  forall con safe_b (m : store),
    (b_begin safe_b <= b_end safe_b)%nat ->
    exists m' r, array_coder.encode_elements C true con safe_b m = (m', r)
      /\ agree_outside m m' (b_begin safe_b) (b_end safe_b)
      /\ forall b', r = Present b' -> suffix_of b' safe_b.
Proof.
  intros Hfr. induction con as [|v con IH]; intros safe_b m Hv.
  - exists m, (Present safe_b). split; [reflexivity|]. split; [apply agree_outside_refl|].
    intros b' [= <-]. apply suffix_of_refl. exact Hv.
  - cbn [array_coder.encode_elements]. unfold bind.
    destruct (Hfr v safe_b m Hv) as (m1 & r1 & -> & Hag & Hs).
    destruct r1 as [b1| | |];
      try (eexists _, _; split; [reflexivity|]; split; [exact Hag|discriminate]).
    pose proof (Hs b1 eq_refl) as [He1 Hb1].
    destruct (IH b1 m1 ltac:(lia)) as (m2 & r2 & -> & Hag2 & Hs2).
    exists m2, r2. split; [reflexivity|]. rewrite He1 in Hag2. split.
    + apply (agree_outside_trans m m1 m2 _ (b_begin b1)); [lia|exact Hag|exact Hag2].
    + intros b' Hr. apply suffix_of_trans with b1; [apply Hs2; exact Hr|split; [exact He1|exact Hb1]].
Qed.

(** X13: over an element coder whose safe [encode] writes inside its view
    only, safe [encode] of [array_coder], whatever the sequence and whatever
    the outcome, leaves the store unchanged outside the view, and a view it
    returns is a suffix of the view it was given. *)
Theorem array_encode_frame (C : coder) `{!skipper C} con b (m : store) :
  framed_encoder C -> (b_begin b <= b_end b)%nat ->
  exists m' r, encode (array C) true con b m = (m', r)
    /\ agree_outside m m' (b_begin b) (b_end b)
    /\ forall b', r = Present b' -> suffix_of b' b.
Proof.
  intros Hfr Hv. cbn [encode array]. unfold array_coder.encode.
  unfold bind at 1, lift.
  destruct (array_coder.skip_sum C con 0) as [n| | |];
    try (eexists _, _; split; [reflexivity|]; split; [apply agree_outside_refl|discriminate]).
  unfold bind.
  destruct (varint_encode_frame W64 n b m Hv) as (m1 & r1 & -> & Hag & Hs).
  destruct r1 as [b1| | |];
    try (eexists _, _; split; [reflexivity|]; split; [exact Hag|discriminate]).
  pose proof (Hs b1 eq_refl) as [He1 Hb1].
  destruct (encode_elements_frame C Hfr con b1 m1 ltac:(lia)) as (m2 & r2 & -> & Hag2 & Hs2).
  exists m2, r2. split; [reflexivity|]. rewrite He1 in Hag2. split.
  - apply (agree_outside_trans m m1 m2 _ (b_begin b1)); [lia|exact Hag|exact Hag2].
  - intros b' Hr. apply suffix_of_trans with b1; [apply Hs2; exact Hr|split; [exact He1|exact Hb1]].
Qed.

Lemma array_encode_frame_witness :
  exists m' r,
    encode (array (enum (mk_int_type true W16))) true [-1; 5] (mk_bytes 1 4) [9; 9; 9; 9; 9]
    = (m', r)
    /\ agree_outside [9; 9; 9; 9; 9] m' 1 4
    /\ forall b', r = Present b' -> suffix_of b' (mk_bytes 1 4).
Proof.
  apply (array_encode_frame (enum (mk_int_type true W16)) [-1; 5] (mk_bytes 1 4)
           [9; 9; 9; 9; 9]).
  - apply enum_framed.
  - simpl. lia.
Defined.

Section array_short.

Context (C : coder) `{!skipper C}.
Context (domain : value_type C -> Prop) (wire : value_type C -> list byte).
Context `{!lawful_encoder C domain wire}.

Lemma encode_elements_short con :
  strict_encoder C domain wire -> Forall domain con ->
  forall safe_b (m : store),
    view_in safe_b m -> (size safe_b < length (array_payload wire con))%nat ->
    exists m', array_coder.encode_elements C true con safe_b m = (m', Absent).
Proof.
  intros Hst. induction 1 as [|v con Hv Hcon IH]; intros safe_b m [Hv1 Hv2] Hs.
  - cbn in Hs. lia.
  - cbn [array_payload map concat] in Hs. fold (array_payload wire con) in Hs.
    rewrite length_app in Hs. cbn [array_coder.encode_elements]. unfold bind.
    destruct (le_lt_dec (length (wire v)) (size safe_b)) as [Hfit|Hshort].
    + unfold size in *. rewrite (encode_wire true v safe_b m Hv) by lia.
      apply IH; [|unfold size; cbn [b_begin b_end]; lia].
      split; cbn [b_begin b_end]; [lia|rewrite written_length; lia].
    + destruct (Hst v safe_b m Hv (conj Hv1 Hv2) Hshort) as (m' & ->).
      exists m'. reflexivity.
Qed.

End array_short.

(** X14: over an element coder that keeps the encoding law and gives up on
    short views, safe [encode] of [array_coder] into a view shorter than the
    length prefix and the elements together returns an absent result. *)
Theorem array_encode_short (C : coder) `{!skipper C} domain wire
    `{!lawful_encoder C domain wire} con b (m : store) :
  strict_encoder C domain wire ->
  array_domain domain wire con -> view_in b m ->
  (size b < length (array_wire wire con))%nat ->
  exists m', encode (array C) true con b m = (m', Absent).
Proof.
  intros Hst [Hdom Hfit] [Hv1 Hv2] Hs. cbn [encode array].
  unfold array_coder.encode, array_wire in *. rewrite length_app in *.
  set (L := Z.of_nat (length (array_payload wire con))) in *.
  assert (in_range W64 L) as HL by (split; [lia|change (2 ^ bits W64) with (2 ^ 64); lia]).
  unfold bind at 1, lift. rewrite (skip_sum_spec C domain wire con 0 Hdom) by lia.
  rewrite Z.add_0_l. fold L. unfold bind.
  destruct (le_lt_dec (length (varint_wire W64 L)) (size b)) as [Hroom|Hshort].
  - unfold size in *. rewrite varint_encode_spec by (try exact HL; try lia).
    apply (encode_elements_short C domain wire con Hst Hdom);
      [|unfold size; cbn [b_begin b_end]; lia].
    split; cbn [b_begin b_end]; [lia|rewrite written_length; lia].
  - destruct (varint_encode_absent W64 L b m HL (conj Hv1 Hv2) Hshort) as (m' & -> & _).
    exists m'. reflexivity.
Qed.

Lemma array_encode_short_witness :
  exists m',
    encode (array (varint W32)) true [1; 300; 2] (mk_bytes 0 4) [9; 9; 9; 9; 9] = (m', Absent).
Proof.
  apply (array_encode_short (varint W32) (in_range W32) (varint_wire W32)
           [1; 300; 2] (mk_bytes 0 4) [9; 9; 9; 9; 9]).
  - apply varint_strict.
  - split; [|vm_compute; reflexivity]. repeat constructor; vm_compute; congruence.
  - unfold view_in. simpl. lia.
  - vm_compute. lia.
Defined.

Example array_short_view_example :
  encode (array (varint W32)) true [1; 300; 2] (mk_bytes 0 4) [9; 9; 9; 9; 9]
  = ([4; 1; 172; 2; 9], Absent).
Proof. vm_compute. reflexivity. Qed.

(** ** Encoding with room touches only what it counts *)

(** X15: for every coder that keeps the encoding law (the varint and
    enumeration coders and arrays of such), in either mode, [encode] into a
    view with room changes the store only between the begin of the view and
    the begin of the view it returns, and that distance is what [encode_skip]
    reports. *)
Theorem encode_touches_what_it_counts (C : coder) `{!skipper C} domain wire
    `{!lawful_encoder C domain wire} is_safe v b (m : store) :
  domain v ->
  (b_begin b + length (wire v) <= b_end b <= length m)%nat ->
  exists m' b',
    encode C is_safe v b m = (m', Present b')
    /\ agree_outside m m' (b_begin b) (b_begin b')
    /\ suffix_of b' b
    /\ encode_skip C v = Present (begin_diff b' b).
Proof.
  intros Hv Hroom. eexists _, _. split; [apply encode_wire; assumption|].
  cbn [b_begin b_end]. split; [apply agree_outside_written; lia|].
  split; [split; cbn [b_begin b_end]; [reflexivity|lia]|].
  rewrite (encode_skip_wire v Hv). f_equal. unfold begin_diff. cbn [b_begin]. lia.
Qed.

Lemma encode_touches_what_it_counts_witness :
  exists m' b',
    encode (array (varint W32)) false [1; 300; 2] (mk_bytes 1 10) (replicate 10 0)
    = (m', Present b')
    /\ agree_outside (replicate 10 0) m' 1 (b_begin b')
    /\ suffix_of b' (mk_bytes 1 10)
    /\ encode_skip (array (varint W32)) [1; 300; 2] = Present (begin_diff b' (mk_bytes 1 10)).
Proof.
  apply (encode_touches_what_it_counts (array (varint W32))
           (array_domain (in_range W32) (varint_wire W32)) (array_wire (varint_wire W32))
           false [1; 300; 2] (mk_bytes 1 10) (replicate 10 0)).
  - split; [|vm_compute; reflexivity]. repeat constructor; vm_compute; congruence.
  - vm_compute. lia.
Defined.

(** ** The skippers before and after the safety mode *)

Lemma unchecked_skip_loop rest iter end_ :
  skipper_varint_coder.decode_skip_loop false rest iter end_
  = unchecked.skipper_varint_coder.decode_skip_loop rest iter.
Proof.
  revert iter. induction rest as [|x rest IH]; intros iter; [reflexivity|].
  cbn [skipper_varint_coder.decode_skip_loop unchecked.skipper_varint_coder.decode_skip_loop andb].
  destruct (Z.shiftr x 7 =? 1); [apply IH|reflexivity].
Qed.

(** X16: in unsafe mode the skippers of the integer, float, varint, signed
    varint and bool coders return, on every input, what the skippers of
    [skip.h] returned before the safety mode was added, and their
    [encode_skip] is unchanged. *)
Theorem unsafe_skippers_unchanged b (m : store) :
  (forall w v,
      skipper_integer_coder.decode_skip w false b m
      = unchecked.skipper_integer_coder.decode_skip w b m
      /\ skipper_integer_coder.encode_skip w v = unchecked.skipper_integer_coder.encode_skip w v)
  /\ (forall t,
      skipper_float_coder.decode_skip t false b m
      = unchecked.skipper_float_coder.decode_skip t b m
      /\ skipper_float_coder.encode_skip t = unchecked.skipper_float_coder.encode_skip t)
  /\ (forall w v,
      skipper_varint_coder.decode_skip w false b m
      = unchecked.skipper_varint_coder.decode_skip w b m
      /\ skipper_varint_coder.encode_skip w v = unchecked.skipper_varint_coder.encode_skip w v)
  /\ (forall w v,
      skipper_varint_coder_signed.decode_skip w false b m
      = unchecked.skipper_varint_coder_signed.decode_skip w b m
      /\ skipper_varint_coder_signed.encode_skip w v
         = unchecked.skipper_varint_coder_signed.encode_skip w v)
  /\ (forall v,
      skipper_bool_coder.decode_skip false b m = unchecked.skipper_bool_coder.decode_skip b m
      /\ skipper_bool_coder.encode_skip v = unchecked.skipper_bool_coder.encode_skip v).
Proof.
  assert (forall w v, skipper_varint_coder.encode_skip w v
                      = unchecked.skipper_varint_coder.encode_skip w v) as Henc.
  { intros w v. unfold skipper_varint_coder.encode_skip, unchecked.skipper_varint_coder.encode_skip.
    generalize (varint_coder.fuel_of w) 0. intros fuel. revert v.
    induction fuel as [|fuel IH]; intros v n; [reflexivity|].
    cbn [skipper_varint_coder.encode_skip_loop unchecked.skipper_varint_coder.encode_skip_loop].
    destruct (Z.shiftr v 7 =? 0); [reflexivity|apply IH]. }
  assert (forall w, skipper_varint_coder.decode_skip w false b m
                    = unchecked.skipper_varint_coder.decode_skip w b m) as Hdec.
  { intros w. unfold skipper_varint_coder.decode_skip, unchecked.skipper_varint_coder.decode_skip.
    cbn [andb]. rewrite unchecked_skip_loop. reflexivity. }
  split; [intros w v; split; reflexivity|].
  split; [intros t; split; reflexivity|].
  split; [intros w v; split; [apply Hdec|apply Henc]|].
  split; [|intros v; split; reflexivity].
  intros w v. split; [apply Hdec|apply Henc].
Qed.

(** ** Safe decoding looks inside the view only *)

Lemma agree_inside_take (m m' : store) b :
  agree_inside m m' b ->
  take (b_end b - b_begin b) (drop (b_begin b) m)
  = take (b_end b - b_begin b) (drop (b_begin b) m').
Proof.
  intros H. apply list_eq. intros i.
  destruct (decide (i < b_end b - b_begin b)%nat) as [Hi|Hi].
  - rewrite !lookup_take_lt by exact Hi. rewrite !lookup_drop. apply H. lia.
  - rewrite !lookup_take_ge by lia. reflexivity.
Qed.

Lemma safe_decode_loop_local w rest rest' iter end_ i acc :
  (iter < end_)%nat -> take (end_ - iter) rest = take (end_ - iter) rest' ->
  varint_coder.decode_loop true w rest iter end_ i acc
  = varint_coder.decode_loop true w rest' iter end_ i acc.
Proof.
  revert rest' iter i acc. induction rest as [|x rest IH]; intros rest' iter i acc Hlt Ht;
    (destruct (end_ - iter)%nat as [|k] eqn:Ek; [lia|]);
    destruct rest' as [|x' rest']; try discriminate; [reflexivity|].
  cbn [take] in Ht. injection Ht as <- Ht.
  cbn [varint_coder.decode_loop andb]. destruct (Z.shiftr x 7 =? 1); [|reflexivity].
  destruct (shl w (Z.land x 127) (7 * i)); cbn [rbind]; try reflexivity.
  destruct (S iter =? end_)%nat eqn:E; [reflexivity|]. apply Nat.eqb_neq in E.
  apply IH; [lia|]. replace (end_ - S iter)%nat with k by lia. exact Ht.
Qed.

Lemma safe_decode_skip_loop_local rest rest' iter end_ :
  (iter < end_)%nat -> take (end_ - iter) rest = take (end_ - iter) rest' ->
  skipper_varint_coder.decode_skip_loop true rest iter end_
  = skipper_varint_coder.decode_skip_loop true rest' iter end_.
Proof.
  revert rest' iter. induction rest as [|x rest IH]; intros rest' iter Hlt Ht;
    (destruct (end_ - iter)%nat as [|k] eqn:Ek; [lia|]);
    destruct rest' as [|x' rest']; try discriminate; [reflexivity|].
  cbn [take] in Ht. injection Ht as <- Ht.
  cbn [skipper_varint_coder.decode_skip_loop andb]. destruct (Z.shiftr x 7 =? 1); [|reflexivity].
  destruct (S iter =? end_)%nat eqn:E; [reflexivity|]. apply Nat.eqb_neq in E.
  apply IH; [lia|]. replace (end_ - S iter)%nat with k by lia. exact Ht.
Qed.

Lemma varint_local w : local_decoder (varint w).
Proof.
  intros s m m' Hv Hag. cbn [decode varint]. unfold varint_coder.decode. cbn [andb].
  destruct (b_begin s =? b_end s)%nat eqn:E; [reflexivity|]. apply Nat.eqb_neq in E.
  rewrite (safe_decode_loop_local w (drop (b_begin s) m) (drop (b_begin s) m'));
    [reflexivity|lia|apply agree_inside_take; exact Hag].
Qed.

(** X17: the result of safe [decode] of the varint coder, and of safe
    [decode_skip] of the varint skipper, depends on the bytes inside the view
    only: two stores that agree inside the view give the same result,
    whatever lies at or past its end. *)
Theorem varint_safe_decode_local w s (m m' : store) :
  (b_begin s <= b_end s)%nat -> agree_inside m m' s ->
  varint_coder.decode w true s m = varint_coder.decode w true s m'
  /\ decode_skip (varint w) true s m = decode_skip (varint w) true s m'.
Proof.
  intros Hv Hag. split; [apply (varint_local w s m m' Hv Hag)|].
  cbn [decode_skip skipper_varint]. unfold skipper_varint_coder.decode_skip. cbn [andb].
  destruct (b_begin s =? b_end s)%nat eqn:E; [reflexivity|]. apply Nat.eqb_neq in E.
  rewrite (safe_decode_skip_loop_local (drop (b_begin s) m) (drop (b_begin s) m'));
    [reflexivity|lia|apply agree_inside_take; exact Hag].
Qed.

Lemma agree_inside_example : agree_inside [150; 1; 7] [150; 1; 200; 200] (mk_bytes 0 2).
Proof.
  intros j Hj. cbn [b_begin b_end] in Hj.
  destruct j as [|[|j]]; [reflexivity|reflexivity|lia].
Defined.

Lemma varint_safe_decode_local_witness :
  varint_coder.decode W32 true (mk_bytes 0 2) [150; 1; 7]
  = varint_coder.decode W32 true (mk_bytes 0 2) [150; 1; 200; 200]
  /\ decode_skip (varint W32) true (mk_bytes 0 2) [150; 1; 7]
     = decode_skip (varint W32) true (mk_bytes 0 2) [150; 1; 200; 200].
Proof.
  apply (varint_safe_decode_local W32 (mk_bytes 0 2) [150; 1; 7] [150; 1; 200; 200]).
  - simpl. lia.
  - exact agree_inside_example.
Defined.

Lemma agree_inside_suffix (m m' : store) b' b :
  suffix_of b' b -> agree_inside m m' b -> agree_inside m m' b'.
Proof. intros [He Hb] H j Hj. apply H. lia. Qed.

Lemma safe_array_loop_local (C : coder) `{!skipper C} fuel len origin_b b con (m m' : store) :
  local_decoder C -> suffix_decoder C ->
  (b_begin b <= b_end b)%nat -> agree_inside m m' b ->
  array_coder.decode_loop C true fuel len origin_b b con m
  = array_coder.decode_loop C true fuel len origin_b b con m'.
Proof.
  intros Hloc Hsuf. revert b con. induction fuel as [|fuel IH]; intros b con Hv Hag;
    rewrite !decode_loop_unfold;
    destruct (to_unsigned W64 (begin_diff b origin_b) <? len); try reflexivity.
  rewrite <- (Hloc b m m' Hv Hag).
  destruct (decode C true b m) as [[v b1]| | |] eqn:Hd; cbn [rbind fst snd]; try reflexivity.
  pose proof (Hsuf b m v b1 Hv Hd) as Hs.
  apply IH; [destruct Hs; lia|apply (agree_inside_suffix m m' b1 b Hs Hag)].
Qed.

(** X18: over an element coder whose safe [decode] looks inside its view only
    and returns suffixes, the result of safe [decode] of [array_coder], and
    of safe [decode_skip] of the array skipper, depends on the bytes inside
    the view only. *)
Theorem array_safe_decode_local (C : coder) `{!skipper C} b (m m' : store) :
  local_decoder C -> suffix_decoder C ->
  (b_begin b <= b_end b)%nat -> agree_inside m m' b ->
  decode (array C) true b m = decode (array C) true b m'
  /\ decode_skip (array C) true b m = decode_skip (array C) true b m'.
Proof.
  intros Hloc Hsuf Hv Hag. cbn [decode array decode_skip skipper_array].
  unfold array_coder.decode, skipper_array_coder.decode_skip.
  assert (varint_coder.decode W64 true b m' = varint_coder.decode W64 true b m) as ->
    by (symmetry; apply (varint_local W64 b m m' Hv Hag)).
  split; [|reflexivity].
  destruct (varint_coder.decode W64 true b m) as [[L b0]| | |] eqn:Hp;
    cbn [rbind fst snd]; try reflexivity.
  pose proof (varint_suffix_decoder W64 b m L b0 Hv Hp) as Hs.
  apply (safe_array_loop_local C); try assumption; [destruct Hs; lia|].
  apply (agree_inside_suffix m m' b0 b Hs Hag).
Qed.

Lemma array_safe_decode_local_witness :
  decode (array (varint W32)) true (mk_bytes 0 2) [150; 1; 7]
  = decode (array (varint W32)) true (mk_bytes 0 2) [150; 1; 200; 200]
  /\ decode_skip (array (varint W32)) true (mk_bytes 0 2) [150; 1; 7]
     = decode_skip (array (varint W32)) true (mk_bytes 0 2) [150; 1; 200; 200].
Proof.
  apply (array_safe_decode_local (varint W32) (mk_bytes 0 2) [150; 1; 7] [150; 1; 200; 200]).
  - apply varint_local.
  - apply varint_suffix_decoder.
  - simpl. lia.
  - exact agree_inside_example.
Defined.
